(** * Historical Cinema 3D: playback scheduler and camera choreography

    A shallow embedding of the [HistoricalCinema3D] component: the local
    scene provider [generateScenesLocally], the narration helper [speak],
    the per-frame camera callback of [CameraRig], the rendering knobs that
    read [quality], and the component's event handlers together with the
    autoplay [useEffect] and the table of live browser intervals.

    Conventions.
    - A JavaScript string is its sequence of UTF-16 code units.
    - A JavaScript number that holds an index is an integer of [Z] or [NaN]
      (the only non-integer value the index arithmetic can produce).
    - Numbers of the camera code are idealised as real numbers.
    - [String.prototype.toLowerCase] is the runtime's full Unicode mapping;
      it is a parameter of the development, and [asciiLower] is its
      restriction to ASCII letters, used to run the model on ASCII input. *)

From Stdlib Require Import ZArith NArith List String Ascii Bool Lia.
From Stdlib Require Import QArith Reals Lra.
Import ListNotations.

Local Open Scope Z_scope.

(** ** JavaScript strings *)

Module JsString.

Definition jsstring := list N.

(** A string literal of the source, all of whose characters are ASCII. *)
Definition lit (s : string) : jsstring :=
  List.map N_of_ascii (list_ascii_of_string s).

Fixpoint eqb (a b : jsstring) : bool :=
  match a, b with
  | [], [] => true
  | x :: a', y :: b' => N.eqb x y && eqb a' b'
  | _, _ => false
  end.

(** WhiteSpace and LineTerminator code points of ECMAScript, the ones
    [String.prototype.trim] strips; all lie in the Basic Multilingual
    Plane, so each is one code unit. *)
Definition isWhiteSpace (c : N) : bool :=
  (N.eqb c 9 || N.eqb c 10 || N.eqb c 11 || N.eqb c 12 || N.eqb c 13
   || N.eqb c 32 || N.eqb c 160 || N.eqb c 5760
   || (N.leb 8192 c && N.leb c 8202)
   || N.eqb c 8232 || N.eqb c 8233 || N.eqb c 8239 || N.eqb c 8287
   || N.eqb c 12288 || N.eqb c 65279)%bool.

Fixpoint trimStart (s : jsstring) : jsstring :=
  match s with
  | [] => []
  | c :: s' => if isWhiteSpace c then trimStart s' else s
  end.

Definition trimEnd (s : jsstring) : jsstring := rev (trimStart (rev s)).

Definition trim (s : jsstring) : jsstring := trimEnd (trimStart s).

Fixpoint startsWith (s sub : jsstring) : bool :=
  match sub, s with
  | [], _ => true
  | _ :: _, [] => false
  | y :: sub', x :: s' => N.eqb x y && startsWith s' sub'
  end.

(** [s.includes(sub)] *)
Fixpoint includes (s sub : jsstring) : bool :=
  startsWith s sub ||
  match s with
  | [] => false
  | _ :: s' => includes s' sub
  end.

(** Truthiness of a string: [!name] is [isEmpty name]. *)
Definition isEmpty (s : jsstring) : bool :=
  match s with [] => true | _ :: _ => false end.

(** [toLowerCase] on the ASCII letters, identity elsewhere. *)
Definition asciiLower (s : jsstring) : jsstring :=
  List.map (fun c => if (N.leb 65 c && N.leb c 90)%bool then (c + 32)%N else c) s.

End JsString.
Import JsString.

(** ** Scenes and locales (lines 16-87) *)

Inductive Locale := EnUS | EsES.

Definition Locale_eqb (a b : Locale) : bool :=
  match a, b with
  | EnUS, EnUS | EsES, EsES => true
  | _, _ => false
  end.

Definition localeTag (l : Locale) : jsstring :=
  match l with EnUS => lit "en-US" | EsES => lit "es-ES" end.

(** At run time [environment] and [cameraStyle] are plain strings; the
    union types [EnvName] and [CameraStyle] exist for the type checker only. *)
Record Scene := mkScene {
  title : jsstring;
  timePeriod : jsstring;
  location : jsstring;
  oneLine : jsstring;
  narration : jsstring;
  visualKeywords : list jsstring;
  palette : list jsstring;
  environment : jsstring;
  cameraStyle : jsstring
}.

Definition envNames : list jsstring :=
  List.map lit ["space"; "desert"; "sea"; "forest"; "city"; "tundra";
                "interior"; "mountain"; "ceremonial"; "battlefield"]%string.

Definition cameraStyles : list jsstring :=
  List.map lit ["dolly-in"; "crane-up"; "orbit-slow"; "handheld";
                "locked-off"; "push-pull"]%string.

Definition member (s : jsstring) (l : list jsstring) : bool :=
  existsb (JsString.eqb s) l.

Definition knownEnvironment (s : jsstring) : bool := member s envNames.
Definition knownCameraStyle (s : jsstring) : bool := member s cameraStyles.

(** The three entries of the table [T] that reach the playback code: the
    labels of the suggested-event buttons. *)
Inductive Suggestion := MoonLanding | AncientEgypt | WorldWarII.

Definition suggestionLabel (l : Locale) (k : Suggestion) : jsstring :=
  match l, k with
  | EnUS, MoonLanding => lit "Moon Landing"
  | EnUS, AncientEgypt => lit "Ancient Egypt"
  | EnUS, WorldWarII => lit "World War II"
  | EsES, MoonLanding => lit "Alunizaje"
  | EsES, AncientEgypt => lit "Antiguo Egipto"
  | EsES, WorldWarII => lit "Segunda Guerra Mundial"
  end.

(** ** The local scene provider (lines 97-255) *)

Definition sc (t p l o n : string) (kw pal : list string) (env cam : string) : Scene :=
  mkScene (lit t) (lit p) (lit l) (lit o) (lit n)
          (List.map lit kw) (List.map lit pal) (lit env) (lit cam).

Definition moonScenes : list Scene :=
  [ sc "Trans-Earth Injection" "July 1969" "Low lunar orbit"
       "Command Module arcs behind a silent crescent."
       "The spacecraft glides over a silver limb as starlight needles the void. Radio static crackles like distant surf."
       ["crescent moon"; "command module"; "starfield"; "dark space"]
       ["#0b1220"; "#d0d6e8"; "#8aa2ff"; "#ffffff"]
       "space" "orbit-slow";
    sc "The Eagle Descends" "July 20, 1969" "Mare Tranquillitatis"
       "LM kicks up plumes as it hovers."
       "Dust blooms like slow-moving fog. Engines hiss against the emptiness, and the surface crawls closer."
       ["lunar module"; "dust plume"; "surface craters"; "harsh light"]
       ["#0b1220"; "#c2b280"; "#e0e0e0"; "#ffffff"]
       "space" "dolly-in";
    sc "Footprints" "July 20, 1969" "Tranquility Base"
       "Boot prints stitch the regolith."
       "A boot presses down and the gray soil keeps its memory. The flag stiffens and winks in the sun."
       ["footprints"; "American flag"; "lander legs"; "sun glare"]
       ["#1a1f2b"; "#9a9a9a"; "#d9d9d9"; "#ff2e2e"]
       "space" "locked-off" ]%string.

Definition egyptScenes : list Scene :=
  [ sc "Rising of the Pyramids" "c. 2560 BCE" "Giza Plateau"
       "Cut stones glow under copper sun."
       "Sand breathes heat. Ropes sing as blocks climb ramps; a thousand hands move in practiced rhythm."
       ["pyramid"; "ramp"; "workers"; "sand haze"]
       ["#a26a2b"; "#f2d3a2"; "#6e4b1f"; "#ffffff"]
       "desert" "crane-up";
    sc "Torchlit Corridor" "Old Kingdom" "Inner passage"
       "Hieroglyphs flicker alive."
       "Flame halos dance along carved gods. The air tastes like stone and resin."
       ["torch"; "hieroglyphs"; "narrow hallway"; "smoke"]
       ["#140c06"; "#f7a531"; "#8c5a12"; "#e7e2d1"]
       "interior" "dolly-in";
    sc "Solar Barge" "Mythic time" "Nile mirage"
       "A royal barge slides across gold."
       "River murmurs under reeds. Drums mark a steady heartbeat as sunlight scatters on ripples."
       ["barge"; "reeds"; "sun glitter"; "oars"]
       ["#184c45"; "#efe3b0"; "#b8882d"; "#0b132b"]
       "sea" "orbit-slow" ]%string.

Definition warScenes : list Scene :=
  [ sc "Storming the Beach" "June 6, 1944" "Normandy"
       "Gray surf meets steel and grit."
       "Engines roar, then sudden shallows. The ramp slams; boots churn water and sand under a sky of smoke."
       ["landing craft"; "barriers"; "smoke"; "waves"]
       ["#2e3a45"; "#9aa4ad"; "#c9d1d5"; "#2b2b2b"]
       "sea" "handheld";
    sc "City in Blackout" "1940" "London"
       "Sirens over dark rooftops."
       "Windows go blind as the sky pulses with searchlights. The ground hums with distant thunder."
       ["searchlights"; "rooftops"; "sirens"; "sandbags"]
       ["#0b0f1a"; "#e5e7eb"; "#6b7280"; "#111827"]
       "city" "orbit-slow";
    sc "The Signatures" "1945" "Aboard the USS Missouri"
       "Pens press history into paper."
       "Coats rustle, cameras click, and the war finally exhales. Ink dries like a sunrise."
       ["table"; "documents"; "medals"; "flags"]
       ["#1f2937"; "#9ca3af"; "#d1d5db"; "#e5e7eb"]
       "interior" "locked-off" ]%string.

(** The fallback scenes splice the argument into their titles. *)
Definition genericScenes (eventName : jsstring) : list Scene :=
  [ mkScene (lit "Prologue of " ++ eventName) [] []
      (lit "A hush before history moves.")
      (lit "Crowds gather at the edge of change. Air tightens, breaths sync, and the first step arrives.")
      (List.map lit ["crowd"; "banners"; "wide plaza"; "dawn light"]%string)
      (List.map lit ["#0a0a0a"; "#dddddd"; "#9c27b0"; "#00bcd4"]%string)
      (lit "city") (lit "dolly-in");
    mkScene (lit "Turning Point of " ++ eventName) [] []
      (lit "Momentum finds its voice.")
      (lit "The world leans forward; wheels, hooves, or engines catch and cascade into change.")
      (List.map lit ["movement"; "flags"; "smoke"; "structures"]%string)
      (List.map lit ["#101827"; "#fbbf24"; "#60a5fa"; "#fca5a5"]%string)
      (lit "battlefield") (lit "handheld");
    mkScene (lit "Epilogue of " ++ eventName) [] []
      (lit "What remains becomes memory.")
      (lit "Footsteps fade; the air is different now. The scene keeps an imprint for those who return.")
      (List.map lit ["empty street"; "paper debris"; "sunset"; "shadows"]%string)
      (List.map lit ["#111827"; "#e5e7eb"; "#f59e0b"; "#ef4444"]%string)
      (lit "city") (lit "orbit-slow") ].

Section Provider.

(** [String.prototype.toLowerCase] of the runtime. *)
Variable toLowerCase : jsstring -> jsstring.

(** [eventName || (the empty string)] is [eventName] itself for every string. *)
Definition generateScenesLocally (eventName : jsstring) : list Scene :=
  let e := toLowerCase (trim eventName) in
  if includes e (lit "moon") || includes e (lit "apollo") then moonScenes
  else if includes e (lit "egypt") then egyptScenes
  else if includes e (lit "world war") || includes e (lit "wwii")
          || includes e (lit "ww2") then warScenes
  else genericScenes eventName.

End Provider.

(** ** CameraRig (lines 346-377) *)

Module Camera.

Local Open Scope R_scope.

Record Vector3 := vec3 { vx : R; vy : R; vz : R }.

(** The orientation is kept as the history of the calls that set it:
    [lookAt] overwrites it from the eye position and the target, and
    [rotation.z += d] rolls whatever orientation is there. *)
Inductive Orientation :=
| Initial
| LookAt (eye target : Vector3)
| RollZ (o : Orientation) (d : R).

Record Camera := mkCamera { position : Vector3; rotation : Orientation }.

(** [v.lerp(target, alpha)] of three.js: [v += (target - v) * alpha]. *)
Definition lerp (v target : Vector3) (alpha : R) : Vector3 :=
  vec3 (vx v + (vx target - vx v) * alpha)
       (vy v + (vy target - vy v) * alpha)
       (vz v + (vz target - vz v) * alpha).

Definition lookAt (x y z : R) (cam : Camera) : Camera :=
  mkCamera (position cam) (LookAt (position cam) (vec3 x y z)).

(** The camera the [Canvas] creates: [position: [0, 2, 8]]. *)
Definition initialCamera : Camera := mkCamera (vec3 0 2 8) Initial.

(** The three successive results of [Math.random()] in the handheld case. *)
Record Random3 := rnd3 { r1 : R; r2 : R; r3 : R }.

(** The callback [CameraRig] registers with [useFrame]: one step of the
    camera for the style [mode] at elapsed time [t].  The [switch] is on
    the string; ["orbit-slow"] and [default] share the last branch. *)
Definition CameraRig (mode : jsstring) (t : R) (rnd : Random3) (cam : Camera) : Camera :=
  let k := 0.5 in
  if JsString.eqb mode (lit "dolly-in") then
    mkCamera (lerp (position cam) (vec3 0 1.5 (4 + cos (t * 0.25) * 0.4)) (k * 0.02))
             (rotation cam)
  else if JsString.eqb mode (lit "crane-up") then
    mkCamera (lerp (position cam)
                   (vec3 (0.6 * sin (t * 0.3)) (2 + sin (t * 0.15)) 6) (k * 0.02))
             (rotation cam)
  else if JsString.eqb mode (lit "handheld") then
    let p := position cam in
    mkCamera (vec3 (vx p + (r1 rnd - 0.5) * 0.01) (vy p + (r2 rnd - 0.5) * 0.01) (vz p))
             (RollZ (rotation cam) ((r3 rnd - 0.5) * 0.002))
  else if JsString.eqb mode (lit "locked-off") then
    lookAt 0 1 0 (mkCamera (lerp (position cam) (vec3 0 1.6 6) (k * 0.05)) (rotation cam))
  else
    lookAt 0 1.2 0
      (mkCamera (vec3 (sin (t * 0.1) * 6) 2 (cos (t * 0.1) * 6)) (rotation cam)).

End Camera.

(** ** Rendering knobs that read [quality] (lines 429-450) *)

Module Render.

Local Open Scope Q_scope.

(** [Math.max(0, Math.floor(2 * quality))] for an integer level. *)
Definition multisampling (quality : Z) : Z := Z.max 0 (2 * quality).

Definition bloomIntensity (quality : Z) : Q := (6 # 10) + (6 # 10) * inject_Z quality.

(** [quality === 0 ? 0.7 : 1] *)
Definition keyLightIntensity (quality : Z) : Q :=
  if Z.eqb quality 0 then 7 # 10 else 1.

End Render.

(** ** Index arithmetic on JavaScript numbers *)

Inductive num := Int (z : Z) | NaN.

Definition jsAdd (a : num) (b : Z) : num :=
  match a with Int z => Int (z + b) | NaN => NaN end.

(** [a % b]: the remainder takes the sign of the dividend, and is [NaN]
    for a zero divisor. *)
Definition jsRem (a : num) (b : Z) : num :=
  match a with
  | Int z => if b =? 0 then NaN else Int (Z.rem z b)
  | NaN => NaN
  end.

(** [scenes.length] *)
Definition len (l : list Scene) : Z := Z.of_nat (List.length l).

(** [scenes[i]]: [undefined] outside the array and at [NaN]. *)
Definition at_index (l : list Scene) (i : num) : option Scene :=
  match i with
  | Int z => if z <? 0 then None else nth_error l (Z.to_nat z)
  | NaN => None
  end.

(** [scenes[i]?.narration] *)
Definition narrationAt (l : list Scene) (i : num) : option jsstring :=
  option_map narration (at_index l i).

(** ** The component state, the browser and the calls to collaborators *)

Inductive Event :=
| ProviderCall (name : jsstring)
| SynthCancel
| SynthSpeak (text : jsstring) (lang : Locale)
| ConsoleError
| Alert (msg : jsstring).

(** A live [setInterval] entry of the browser: its handle, the time of its
    next firing, its period, and what its callback closed over. *)
Record Interval := mkInterval {
  handle : nat;
  deadline : Z;
  period : Z;
  cap_scenes : list Scene;
  cap_narration : bool;
  cap_locale : Locale
}.

(** The [useState] cells of [HistoricalCinema3D] (lines 463-472; the cell
    [narration] is named [narrationEnabled] here, [narration] being a field
    of [Scene]), then the rest of the world.  [scenesId] stands for the
    identity of the array in [scenes], which React compares with
    [Object.is]; [effectCleanup] is the handle the pending cleanup of the
    autoplay effect will clear. *)
Record World := mkWorld {
  locale : Locale;
  eventName : jsstring;
  scenes : list Scene;
  scenesId : nat;
  active : num;
  playing : bool;
  autoplay : bool;
  narrationEnabled : bool;
  quality : Z;
  loading : bool;
  effectCleanup : option nat;
  speechSynthesis : bool;
  timers : list Interval;
  nextHandle : nat;
  now : Z;
  log : list Event
}.

Definition setLocale (v : Locale) (w : World) : World :=
  mkWorld v (eventName w) (scenes w) (scenesId w) (active w) (playing w) (autoplay w)
    (narrationEnabled w) (quality w) (loading w) (effectCleanup w) (speechSynthesis w)
    (timers w) (nextHandle w) (now w) (log w).

Definition setEventName (v : jsstring) (w : World) : World :=
  mkWorld (locale w) v (scenes w) (scenesId w) (active w) (playing w) (autoplay w)
    (narrationEnabled w) (quality w) (loading w) (effectCleanup w) (speechSynthesis w)
    (timers w) (nextHandle w) (now w) (log w).

(** Every array handed to [setScenes] is freshly allocated by the provider. *)
Definition setScenes (v : list Scene) (w : World) : World :=
  mkWorld (locale w) (eventName w) v (S (scenesId w)) (active w) (playing w) (autoplay w)
    (narrationEnabled w) (quality w) (loading w) (effectCleanup w) (speechSynthesis w)
    (timers w) (nextHandle w) (now w) (log w).

Definition setActive (v : num) (w : World) : World :=
  mkWorld (locale w) (eventName w) (scenes w) (scenesId w) v (playing w) (autoplay w)
    (narrationEnabled w) (quality w) (loading w) (effectCleanup w) (speechSynthesis w)
    (timers w) (nextHandle w) (now w) (log w).

Definition setPlaying (v : bool) (w : World) : World :=
  mkWorld (locale w) (eventName w) (scenes w) (scenesId w) (active w) v (autoplay w)
    (narrationEnabled w) (quality w) (loading w) (effectCleanup w) (speechSynthesis w)
    (timers w) (nextHandle w) (now w) (log w).

Definition setAutoplay (v : bool) (w : World) : World :=
  mkWorld (locale w) (eventName w) (scenes w) (scenesId w) (active w) (playing w) v
    (narrationEnabled w) (quality w) (loading w) (effectCleanup w) (speechSynthesis w)
    (timers w) (nextHandle w) (now w) (log w).

Definition setNarration (v : bool) (w : World) : World :=
  mkWorld (locale w) (eventName w) (scenes w) (scenesId w) (active w) (playing w) (autoplay w)
    v (quality w) (loading w) (effectCleanup w) (speechSynthesis w)
    (timers w) (nextHandle w) (now w) (log w).

Definition setQuality (v : Z) (w : World) : World :=
  mkWorld (locale w) (eventName w) (scenes w) (scenesId w) (active w) (playing w) (autoplay w)
    (narrationEnabled w) v (loading w) (effectCleanup w) (speechSynthesis w)
    (timers w) (nextHandle w) (now w) (log w).

Definition setLoading (v : bool) (w : World) : World :=
  mkWorld (locale w) (eventName w) (scenes w) (scenesId w) (active w) (playing w) (autoplay w)
    (narrationEnabled w) (quality w) v (effectCleanup w) (speechSynthesis w)
    (timers w) (nextHandle w) (now w) (log w).

Definition withCleanup (v : option nat) (w : World) : World :=
  mkWorld (locale w) (eventName w) (scenes w) (scenesId w) (active w) (playing w) (autoplay w)
    (narrationEnabled w) (quality w) (loading w) v (speechSynthesis w)
    (timers w) (nextHandle w) (now w) (log w).

Definition withTimers (v : list Interval) (w : World) : World :=
  mkWorld (locale w) (eventName w) (scenes w) (scenesId w) (active w) (playing w) (autoplay w)
    (narrationEnabled w) (quality w) (loading w) (effectCleanup w) (speechSynthesis w)
    v (nextHandle w) (now w) (log w).

Definition withNextHandle (v : nat) (w : World) : World :=
  mkWorld (locale w) (eventName w) (scenes w) (scenesId w) (active w) (playing w) (autoplay w)
    (narrationEnabled w) (quality w) (loading w) (effectCleanup w) (speechSynthesis w)
    (timers w) v (now w) (log w).

Definition withNow (v : Z) (w : World) : World :=
  mkWorld (locale w) (eventName w) (scenes w) (scenesId w) (active w) (playing w) (autoplay w)
    (narrationEnabled w) (quality w) (loading w) (effectCleanup w) (speechSynthesis w)
    (timers w) (nextHandle w) v (log w).

(** The log is chronological: a call is appended at its end. *)
Definition emit (e : Event) (w : World) : World :=
  mkWorld (locale w) (eventName w) (scenes w) (scenesId w) (active w) (playing w) (autoplay w)
    (narrationEnabled w) (quality w) (loading w) (effectCleanup w) (speechSynthesis w)
    (timers w) (nextHandle w) (now w) (log w ++ [e]).

(** The state at mount: the [useState] initial values, no interval (the
    autoplay effect returns at once, [playing] being false), an empty log.
    [synth] tells whether [window.speechSynthesis] exists. *)
Definition initialWorld (synth : bool) : World :=
  mkWorld EnUS [] [] 0 (Int 0) false true true 1 false None synth [] 0 0 [].

(** ** speak (lines 257-267) *)

(** The calls on [speechSynthesis] are taken not to throw; the source
    swallows whatever they throw. *)
Definition speak (text : option jsstring) (enabled : bool) (lang : Locale)
    (w : World) : World :=
  if negb enabled || negb (speechSynthesis w) then w
  else emit (SynthSpeak (match text with Some s => s | None => [] end) lang)
         (emit SynthCancel w).

(** ** The autoplay effect (lines 500-510) *)

Definition autoplayPeriod : Z := 6800.

(** [window.setInterval(callback, ms)]: a new entry whose first firing is
    one period from now; the callback closes over the [scenes],
    [narration] and [locale] of the render that runs the effect. *)
Definition setInterval (ms : Z) (w : World) : World :=
  withNextHandle (S (nextHandle w))
    (withTimers (timers w ++ [mkInterval (nextHandle w) (now w + ms) ms
                                (scenes w) (narrationEnabled w) (locale w)]) w).

Definition clearInterval (h : nat) (w : World) : World :=
  withTimers (filter (fun iv => negb (Nat.eqb (handle iv) h)) (timers w)) w.

(** The effect body: nothing to clean up after the early return, else the
    cleanup that clears the interval just created. *)
Definition autoplayEffect (w : World) : World :=
  if negb (playing w) || negb (autoplay w) || (len (scenes w) =? 0) then
    withCleanup None w
  else
    withCleanup (Some (nextHandle w)) (setInterval autoplayPeriod w).

Definition runCleanup (w : World) : World :=
  match effectCleanup w with
  | Some h => clearInterval h w
  | None => w
  end.

(** The dependency list [[playing, autoplay, scenes, narration, locale]]. *)
Definition depsChanged (old new : World) : bool :=
  negb (Bool.eqb (playing old) (playing new)
        && Bool.eqb (autoplay old) (autoplay new)
        && Nat.eqb (scenesId old) (scenesId new)
        && Bool.eqb (narrationEnabled old) (narrationEnabled new)
        && Locale_eqb (locale old) (locale new)).

(** The commit after a handler: when a dependency changed, the previous
    cleanup runs and then the effect body. *)
Definition render (old new : World) : World :=
  if depsChanged old new then autoplayEffect (runCleanup new) else new.

(** The interval callback, with the values its closure captured. *)
Definition intervalCallback (iv : Interval) (w : World) : World :=
  let next := jsRem (jsAdd (active w) 1) (len (cap_scenes iv)) in
  setActive next
    (speak (narrationAt (cap_scenes iv) next) (cap_narration iv) (cap_locale iv) w).

(** ** startShow (lines 482-498) *)

Inductive Provided := Returned (local : list Scene) | Thrown.

Definition failureMessage : jsstring :=
  lit "Failed to generate scenes. Try another event.".

(** [startShow] with the provider call as a parameter.  The state setters
    run in source order; [narration] and [locale] are read from the render
    the handler belongs to. *)
Definition startShowWith (provider : jsstring -> Provided)
    (evtName : option jsstring) (w : World) : World :=
  let name := trim (match evtName with Some s => s | None => eventName w end) in
  if isEmpty name then w
  else
    let w1 := emit (ProviderCall name) (setLoading true w) in
    let w2 :=
      match provider name with
      | Returned local =>
          speak (option_map narration (nth_error local 0))
                (narrationEnabled w) (locale w)
                (setPlaying true (setActive (Int 0) (setScenes local w1)))
      | Thrown => emit (Alert failureMessage) (emit ConsoleError w1)
      end in
    setLoading false w2.

(** ** The handlers of the controls (lines 540-632) *)

Definition onPrevious (w : World) : World :=
  let idx := jsRem (jsAdd (jsAdd (active w) (-1)) (len (scenes w))) (len (scenes w)) in
  setActive idx (speak (narrationAt (scenes w) idx) (narrationEnabled w) (locale w) w).

Definition onNext (w : World) : World :=
  let idx := jsRem (jsAdd (active w) 1) (len (scenes w)) in
  setActive idx (speak (narrationAt (scenes w) idx) (narrationEnabled w) (locale w) w).

Definition onPlayPause (w : World) : World := setPlaying (negb (playing w)) w.

Definition onSeek (v : Z) (w : World) : World := setActive (Int v) w.

(** What the user and the clock can do. *)
Inductive Op :=
| SelectLocale (l : Locale)
| TypeEventName (s : jsstring)
| ClickBegin
| CheckAutoplay (b : bool)
| CheckNarration (b : bool)
| SlideQuality (q : Z)
| ClickSuggestion (k : Suggestion)
| ClickPrevious
| ClickPlayPause
| ClickNext
| SlideSeek (v : Z)
| TimerFires (h : nat)
| TimePasses (d : Z).

Definition findInterval (h : nat) (w : World) : option Interval :=
  find (fun iv => Nat.eqb (handle iv) h) (timers w).

(** An interval fires: the clock is at its deadline, the callback runs,
    and the entry is rescheduled one period later. *)
Definition fire (h : nat) (w : World) : World :=
  match findInterval h w with
  | None => w
  | Some iv =>
      let w1 := withNow (deadline iv) w in
      let w2 := intervalCallback iv w1 in
      withTimers
        (List.map (fun j => if Nat.eqb (handle j) h
                            then mkInterval (handle j) (deadline j + period j) (period j)
                                   (cap_scenes j) (cap_narration j) (cap_locale j)
                            else j) (timers w2)) w2
  end.

Section Playback.

Variable toLowerCase : jsstring -> jsstring.

Definition startShow : option jsstring -> World -> World :=
  startShowWith (fun name => Returned (generateScenesLocally toLowerCase name)).

Definition handler (op : Op) (w : World) : World :=
  match op with
  | SelectLocale l => setLocale l w
  | TypeEventName s => setEventName s w
  | ClickBegin => startShow None w
  | CheckAutoplay b => setAutoplay b w
  | CheckNarration b => setNarration b w
  | SlideQuality q => setQuality q w
  | ClickSuggestion k =>
      let x := suggestionLabel (locale w) k in
      startShow (Some x) (setEventName x w)
  | ClickPrevious => onPrevious w
  | ClickPlayPause => onPlayPause w
  | ClickNext => onNext w
  | SlideSeek v => onSeek v w
  | TimerFires h => fire h w
  | TimePasses d => withNow (now w + d) w
  end.

(** One operation followed by the commit it causes. *)
Definition dispatch (op : Op) (w : World) : World := render w (handler op w).

(** Which operations the page offers in a state: the navigation row is
    rendered only for a non-empty [scenes], the suggestions only for an
    empty one; a range input reports values between its [min] and [max];
    an interval fires at its deadline, earliest first, and the clock does
    not run past a pending deadline. *)
Definition enabled (w : World) (op : Op) : bool :=
  match op with
  | SelectLocale _ | TypeEventName _ | ClickBegin
  | CheckAutoplay _ | CheckNarration _ => true
  | SlideQuality q => (0 <=? q) && (q <=? 2)
  | ClickSuggestion _ => len (scenes w) =? 0
  | ClickPrevious | ClickPlayPause | ClickNext => 0 <? len (scenes w)
  | SlideSeek v =>
      (0 <? len (scenes w)) && (0 <=? v) && (v <=? Z.max 0 (len (scenes w) - 1))
  | TimerFires h =>
      match findInterval h w with
      | None => false
      | Some iv =>
          (now w <=? deadline iv)
          && forallb (fun j => deadline iv <=? deadline j) (timers w)
      end
  | TimePasses d =>
      (0 <=? d) && forallb (fun j => now w + d <=? deadline j) (timers w)
  end.

Inductive steps : World -> list Op -> World -> Prop :=
| steps_nil : forall w, steps w [] w
| steps_cons : forall w op ops w',
    enabled w op = true ->
    steps (dispatch op w) ops w' ->
    steps w (op :: ops) w'.

Definition run (ops : list Op) (w : World) : World :=
  fold_left (fun w op => dispatch op w) ops w.

Definition reachable (w : World) : Prop :=
  exists synth ops, steps (initialWorld synth) ops w.

End Playback.

(** ** Observations used by the statements *)

(** Every field of a scene the presentation reads is there: text to show
    and to speak, keywords, four palette entries, an environment and a
    camera style among the enumerated ones.  ([timePeriod] and [location]
    are strings too; the fallback scenes leave them empty.) *)
Definition populated (s : Scene) : bool :=
  negb (isEmpty (title s)) && negb (isEmpty (oneLine s)) && negb (isEmpty (narration s))
  && Nat.eqb (List.length (visualKeywords s)) 4
  && Nat.eqb (List.length (palette s)) 4
  && knownEnvironment (environment s)
  && knownCameraStyle (cameraStyle s).

Definition isFailure (e : Event) : bool :=
  match e with ConsoleError | Alert _ => true | _ => false end.

Definition isProviderCall (e : Event) : bool :=
  match e with ProviderCall _ => true | _ => false end.

Definition isSinkCall (e : Event) : bool :=
  match e with SynthCancel | SynthSpeak _ _ => true | _ => false end.

Definition isSpeak (e : Event) : bool :=
  match e with SynthSpeak _ _ => true | _ => false end.

Definition isCancel (e : Event) : bool :=
  match e with SynthCancel => true | _ => false end.

(** The calls made to the Narration Sink so far. *)
Definition sinkCalls (w : World) : list Event := filter isSinkCall (log w).

(** The topic [startShow] works on: [(evtName ?? eventName).trim()]. *)
Definition topicOf (evtName : option jsstring) (w : World) : jsstring :=
  trim (match evtName with Some s => s | None => eventName w end).

(** What one activation of scene [i] of [l] sends to the Narration Sink. *)
Definition narrationCalls (l : list Scene) (i : num) (enabled synth : bool)
    (lang : Locale) : list Event :=
  if enabled && synth then
    [SynthCancel;
     SynthSpeak (match narrationAt l i with Some s => s | None => [] end) lang]
  else [].

(** The invariant of the data model on [active]. *)
Definition activeInRange (w : World) : Prop :=
  0 < len (scenes w) -> exists a, active w = Int a /\ 0 <= a < len (scenes w).


(** The condition under which the autoplay effect keeps an interval. *)
Definition autoplayCondition (w : World) : bool :=
  playing w && autoplay w && negb (len (scenes w) =? 0).

(** The interval table agrees with the autoplay effect: no interval and no
    pending cleanup when the condition fails; otherwise exactly one, the one
    the pending cleanup will clear, with the reference period, a callback
    that closed over the current [scenes], [narration] and [locale], and a
    next firing at most one period away. *)
Definition armed (w : World) : Prop :=
  match timers w with
  | [] => effectCleanup w = None /\ autoplayCondition w = false
  | [iv] =>
      effectCleanup w = Some (handle iv)
      /\ autoplayCondition w = true
      /\ period iv = autoplayPeriod
      /\ cap_scenes iv = scenes w
      /\ cap_narration iv = narrationEnabled w
      /\ cap_locale iv = locale w
      /\ now w <= deadline iv <= now w + autoplayPeriod
  | _ :: _ :: _ => False
  end.

Definition isClock (op : Op) : bool :=
  match op with TimerFires _ | TimePasses _ => true | _ => false end.

(** A provider of the kind the closing note of the source describes (a
    backend in place of [generateScenesLocally]), returning one scene whose
    camera style is outside the enumeration. *)
Definition warpScene : Scene :=
  (sc "Drift" "1969" "Nowhere" "A scene with an unknown style." "Nothing to say."
      ["starfield"] ["#000000"; "#111111"; "#222222"; "#ffffff"]
      "space" "warp-speed")%string.

Definition warpProvider (name : jsstring) : Provided := Returned [warpScene].

(** The branches of the [switch] in [CameraRig] that name a style and do
    not share their body with [default]. *)
Definition hasOwnBranch (mode : jsstring) : bool :=
  member mode (List.map lit ["dolly-in"; "crane-up"; "handheld"; "locked-off"]%string).

(** Everything an observer of the schedule sees: the world with its
    [quality] cell blanked. *)
Definition eraseQuality (w : World) : World := setQuality 0 w.

(** Two operations that are the same except, perhaps, for the level chosen
    on the quality slider. *)
Definition sameUpToQuality (o1 o2 : Op) : Prop :=
  match o1, o2 with
  | SlideQuality _, SlideQuality _ => True
  | _, _ => o1 = o2
  end.

Definition qualityInRange (op : Op) : Prop :=
  match op with SlideQuality q => 0 <= q <= 2 | _ => True end.

(** Whether a list of operations can be performed one after the other. *)
Fixpoint allEnabled (toLowerCase : jsstring -> jsstring) (ops : list Op) (w : World) : bool :=
  match ops with
  | [] => true
  | op :: ops' => enabled w op && allEnabled toLowerCase ops' (dispatch toLowerCase op w)
  end.

(** A show on the topic ["moon"], begun from the initial state. *)
Definition moonShow : World :=
  run asciiLower [TypeEventName (lit "moon"); ClickBegin] (initialWorld true).

(** ** What the page shows (lines 512, 626-654) *)




(** ** Diorama, KeyLights and SceneStage (lines 269-278, 379-450) *)

Module Stage.

(** The children [Diorama] returns, in source order. *)
Inductive Element :=
| Starscape
| Environment (preset : jsstring)
| WaterPlane (color : jsstring)
| Ground (color : jsstring)
| Pyramid
| Flag
| Footprints
| Sphere
| DreiText (text color : jsstring).

(** The own properties of the object [base]. *)
Definition base : list (jsstring * jsstring) :=
  List.map (fun p => (lit (fst p), lit (snd p)))
    [("space", "#1b2333"); ("desert", "#4d3b22"); ("city", "#222");
     ("interior", "#222"); ("battlefield", "#2a2a2a"); ("sea", "#0b3d3a");
     ("forest", "#1f2d1f"); ("tundra", "#dfe6ef"); ("mountain", "#2b2f3a");
     ("ceremonial", "#33221b")]%string.

(** The property names [base] inherits from [Object.prototype]: looked up
    with one of them, [base[env]] is an object without a [ground]. *)
Definition inherited : list jsstring :=
  List.map lit ["constructor"; "hasOwnProperty"; "isPrototypeOf";
                "propertyIsEnumerable"; "toLocaleString"; "toString"; "valueOf";
                "__proto__"; "__defineGetter__"; "__defineSetter__";
                "__lookupGetter__"; "__lookupSetter__"]%string.

Inductive Lookup := Own (ground : jsstring) | NoGround | TypeError.

(** [base[scene.environment].ground] *)
Definition groundOf (env : jsstring) : Lookup :=
  match find (fun p => JsString.eqb (fst p) env) base with
  | Some p => Own (snd p)
  | None => if member env inherited then NoGround else TypeError
  end.

(** [array.includes(x)] on an array of strings. *)
Definition arrayIncludes (l : list jsstring) (x : jsstring) : bool :=
  existsb (fun y => JsString.eqb y x) l.

(** [scene.palette?.[3] || "#fff"] *)
Definition titleColor (scene : Scene) : jsstring :=
  match nth_error (palette scene) 3 with
  | Some c => if isEmpty c then lit "#fff" else c
  | None => lit "#fff"
  end.

Definition when (b : bool) (e : Element) : list Element := if b then [e] else [].

(** [Diorama]: [None] when the lookup of the ground colour throws.  An
    undefined colour makes [WaterPlane] and [Ground] use their defaults. *)
Definition Diorama (scene : Scene) : option (list Element) :=
  let isSpace := JsString.eqb (environment scene) (lit "space") in
  let isSea := JsString.eqb (environment scene) (lit "sea") in
  let children (waterColor groundColor : jsstring) :=
    when isSpace Starscape
    ++ when (negb isSpace) (Environment (lit "sunset"))
    ++ [if isSea then WaterPlane waterColor else Ground groundColor]
    ++ when (arrayIncludes (visualKeywords scene) (lit "pyramid")) Pyramid
    ++ when (arrayIncludes (visualKeywords scene) (lit "flag")) Flag
    ++ when (arrayIncludes (visualKeywords scene) (lit "footprints")) Footprints
    ++ when isSpace Sphere
    ++ [DreiText (title scene) (titleColor scene)] in
  match groundOf (environment scene) with
  | Own g => Some (children g g)
  | NoGround => Some (children (lit "#184c45") (lit "#111"))
  | TypeError => None
  end.

(** The intensities of the four lights of [KeyLights]. *)
Definition KeyLights (intensity : Q) : list Q :=
  [(4 # 10) * intensity; (8 # 10) * intensity; (5 # 10) * intensity;
   (7 # 10) * intensity]%Q.




End Stage.

(** ** Further observations on the state and the log *)


(** The texts handed to [speechSynthesis.speak], oldest first. *)
Definition spokenTexts (w : World) : list jsstring :=
  flat_map (fun e => match e with SynthSpeak t _ => [t] | _ => [] end) (log w).

(** What holds of the state cells between two events. *)
Definition settled (w : World) : Prop :=
  loading w = false
  /\ forallb populated (scenes w) = true
  /\ (scenes w = [] \/ List.length (scenes w) = 3%nat)
  /\ (scenes w = [] -> playing w = false /\ active w = Int 0 /\ log w = []).

(** ** Successive frames of the camera and the flag (lines 298-317, 346-377) *)

Module Frames.

Import Camera.
Local Open Scope R_scope.

(** The camera after the frames [frames], each with its elapsed time and
    its random draws, all in the style [mode]. *)
Definition runFrames (mode : jsstring) (frames : list (R * Random3)) (cam : Camera) : Camera :=
  fold_left (fun c f => CameraRig mode (fst f) (snd f) c) frames cam.

(** [Math.random()] returns a number in [[0, 1)]. *)
Definition inUnit (rnd : Random3) : Prop :=
  0 <= r1 rnd < 1 /\ 0 <= r2 rnd < 1 /\ 0 <= r3 rnd < 1.

(** The refs of [Flag]: the accumulated time [t] and the cloth's [x]. *)
Record FlagRefs := mkFlag { flagT : R; clothX : R }.

(** The cloth is mounted at [position[0] + 0.6]. *)
Definition flagMount (poleX : R) : FlagRefs := mkFlag 0 (poleX + 0.6).

(** The [useFrame] callback of [Flag] for a frame that lasted [dt]. *)
Definition flagFrame (poleX dt : R) (f : FlagRefs) : FlagRefs :=
  let t := flagT f + dt in
  mkFlag t (poleX + sin (t * 2) * 0.1).

End Frames.

(** ** Substrings and plain-ASCII strings *)

(** [sub] occurs in [s] as a contiguous block. *)
Definition occurs (sub s : jsstring) : Prop :=
  exists pre post, s = pre ++ sub ++ post.

Definition isAscii (s : jsstring) : bool := forallb (fun c => N.ltb c 128) s.

(** The topic as given to [startShow], before trimming. *)
Definition rawTopic (evtName : option jsstring) (w : World) : jsstring :=
  match evtName with Some s => s | None => eventName w end.

(** ** The Select component (unnamed/part_000) *)

Module SelectUi.

(** The [value] prop of [Select] and its local state [v]; [None] is
    [undefined]. *)
Record Select := mkSelect { value : option jsstring; v : option jsstring }.

Definition sameValue (a b : option jsstring) : bool :=
  match a, b with
  | Some x, Some y => JsString.eqb x y
  | None, None => true
  | _, _ => false
  end.

(** Mount: [useState(value)]. *)
Definition mount (value : option jsstring) : Select := mkSelect value value.

(** The parent renders the component with the prop [value']; the effect
    [setV(value)] runs when the prop is not the one of the last render. *)
Definition rerender (value' : option jsstring) (s : Select) : Select :=
  if sameValue (value s) value' then mkSelect value' (v s) else mkSelect value' value'.

(** A click on the item [x]: [setV(x); onValueChange?.(x)].  The handler,
    when there is one, is the parent's, and tells the prop of the render
    that follows. *)
Definition clickItem (onValueChange : option (jsstring -> option jsstring))
    (x : jsstring) (s : Select) : Select :=
  let s1 := mkSelect (value s) (Some x) in
  match onValueChange with
  | Some parent => rerender (parent x) s1
  | None => s1
  end.

(** [SelectValue]: [value ?? placeholder ?? "Select"], on the context's value. *)
Definition SelectValue (placeholder : option jsstring) (s : Select) : jsstring :=
  match v s with
  | Some x => x
  | None => match placeholder with Some p => p | None => lit "Select" end
  end.

(** The parent of [HistoricalCinema3D]: [(v) => setLocale(v)] feeding
    [value={locale}]. *)
Definition controlled (x : jsstring) : option jsstring := Some x.

End SelectUi.

(** ** Classes of operations *)

(** The operations whose handlers change no dependency of the autoplay
    effect. *)
Definition keepsInterval (op : Op) : bool :=
  match op with
  | ClickNext | ClickPrevious | SlideSeek _ | SlideQuality _ | TypeEventName _ => true
  | _ => false
  end.

(** The operations whose handlers contain no call of [speak]. *)
Definition neverSpeaks (op : Op) : bool :=
  match op with
  | ClickBegin | ClickSuggestion _ | ClickNext | ClickPrevious | TimerFires _ => false
  | _ => true
  end.
(** * Properties *)

Section ProviderFacts.

Variable toLowerCase : jsstring -> jsstring.

Lemma generateScenesLocally_cases (eventName : jsstring) :
  generateScenesLocally toLowerCase eventName = moonScenes
  \/ generateScenesLocally toLowerCase eventName = egyptScenes
  \/ generateScenesLocally toLowerCase eventName = warScenes
  \/ generateScenesLocally toLowerCase eventName = genericScenes eventName.
Proof.
  unfold generateScenesLocally.
  destruct (includes _ (lit "moon") || includes _ (lit "apollo")); [now left|].
  destruct (includes _ (lit "egypt")); [now right; left|].
  destruct (includes _ (lit "world war") || includes _ (lit "wwii")
            || includes _ (lit "ww2")); [now right; right; left|].
  now right; right; right.
Qed.

Lemma generateScenesLocally_length (eventName : jsstring) :
  List.length (generateScenesLocally toLowerCase eventName) = 3%nat.
Proof.
  destruct (generateScenesLocally_cases eventName) as [E|[E|[E|E]]];
    rewrite E; reflexivity.
Qed.

Lemma generateScenesLocally_populated (eventName : jsstring) :
  forallb populated (generateScenesLocally toLowerCase eventName) = true.
Proof.
  destruct (generateScenesLocally_cases eventName) as [E|[E|[E|E]]];
    rewrite E; vm_compute; reflexivity.
Qed.

Lemma len_generateScenesLocally (eventName : jsstring) :
  len (generateScenesLocally toLowerCase eventName) = 3.
Proof. unfold len. now rewrite generateScenesLocally_length. Qed.

End ProviderFacts.

(** ** The dependency list *)

Lemma depsChanged_false (old new : World) :
  depsChanged old new = false ->
  playing new = playing old /\ autoplay new = autoplay old
  /\ scenesId new = scenesId old
  /\ narrationEnabled new = narrationEnabled old /\ locale new = locale old.
Proof.
  unfold depsChanged. intros H. apply negb_false_iff in H.
  apply andb_prop in H. destruct H as [H L].
  apply andb_prop in H. destruct H as [H R].
  apply andb_prop in H. destruct H as [H I].
  apply andb_prop in H. destruct H as [P U].
  apply Bool.eqb_prop in P. apply Bool.eqb_prop in U. apply Nat.eqb_eq in I.
  apply Bool.eqb_prop in R.
  repeat split; try congruence.
  destruct (locale old), (locale new); simpl in *; congruence.
Qed.

Lemma depsChanged_same (old new : World) :
  playing new = playing old -> autoplay new = autoplay old ->
  scenesId new = scenesId old ->
  narrationEnabled new = narrationEnabled old -> locale new = locale old ->
  depsChanged old new = false.
Proof.
  unfold depsChanged. intros -> -> -> -> ->.
  rewrite !Bool.eqb_reflx, Nat.eqb_refl. now destruct (locale old).
Qed.

(** ** startShow *)

Lemma speak_eq (text : option jsstring) (enabled : bool) (lang : Locale) (w : World) :
  speak text enabled lang w
  = mkWorld (locale w) (eventName w) (scenes w) (scenesId w) (active w) (playing w)
      (autoplay w) (narrationEnabled w) (quality w) (loading w) (effectCleanup w)
      (speechSynthesis w) (timers w) (nextHandle w) (now w)
      (log w ++ if enabled && speechSynthesis w
                then [SynthCancel; SynthSpeak (match text with Some s => s | None => [] end) lang]
                else []).
Proof.
  unfold speak, emit. destruct w as [? ? ? ? ? ? ? ? ? ? ? synth ? ? ? lg]; cbn.
  destruct enabled, synth; cbn; rewrite <- ?app_assoc, ?app_nil_r; reflexivity.
Qed.

Lemma startShowWith_empty provider (evtName : option jsstring) (w : World) :
  isEmpty (topicOf evtName w) = true -> startShowWith provider evtName w = w.
Proof. unfold startShowWith, topicOf. now intros ->. Qed.

Lemma startShowWith_returned provider (evtName : option jsstring) (w : World) local :
  isEmpty (topicOf evtName w) = false ->
  provider (topicOf evtName w) = Returned local ->
  startShowWith provider evtName w
  = mkWorld (locale w) (eventName w) local (S (scenesId w)) (Int 0) true
      (autoplay w) (narrationEnabled w) (quality w) false (effectCleanup w)
      (speechSynthesis w) (timers w) (nextHandle w) (now w)
      (log w ++ ProviderCall (topicOf evtName w)
             :: narrationCalls local (Int 0) (narrationEnabled w) (speechSynthesis w)
                  (locale w)).
Proof.
  unfold startShowWith, topicOf. intros -> ->.
  rewrite speak_eq. unfold narrationCalls, narrationAt, emit.
  destruct w as [? ? ? ? ? ? ? nar ? ? ? synth ? ? ? lg]; cbn.
  rewrite <- app_assoc. reflexivity.
Qed.

Lemma startShowWith_thrown provider (evtName : option jsstring) (w : World) :
  isEmpty (topicOf evtName w) = false ->
  provider (topicOf evtName w) = Thrown ->
  startShowWith provider evtName w
  = mkWorld (locale w) (eventName w) (scenes w) (scenesId w) (active w) (playing w)
      (autoplay w) (narrationEnabled w) (quality w) false (effectCleanup w)
      (speechSynthesis w) (timers w) (nextHandle w) (now w)
      (log w ++ [ProviderCall (topicOf evtName w); ConsoleError; Alert failureMessage]).
Proof.
  unfold startShowWith, topicOf, emit. intros -> ->.
  destruct w; cbn. rewrite <- !app_assoc. reflexivity.
Qed.

Section StartShow.

Variable toLowerCase : jsstring -> jsstring.

Lemma startShow_returned (evtName : option jsstring) (w : World) :
  isEmpty (topicOf evtName w) = false ->
  startShow toLowerCase evtName w
  = mkWorld (locale w) (eventName w)
      (generateScenesLocally toLowerCase (topicOf evtName w))
      (S (scenesId w)) (Int 0) true
      (autoplay w) (narrationEnabled w) (quality w) false (effectCleanup w)
      (speechSynthesis w) (timers w) (nextHandle w) (now w)
      (log w ++ ProviderCall (topicOf evtName w)
             :: narrationCalls (generateScenesLocally toLowerCase (topicOf evtName w))
                  (Int 0) (narrationEnabled w) (speechSynthesis w) (locale w)).
Proof.
  intros H. unfold startShow. now apply startShowWith_returned.
Qed.

(** C1: for a topic that is non-empty after trimming, [startShow] installs
    the sequence the provider returns for the trimmed topic, sets [active]
    to 0 whatever it was, [playing] to true and [loading] to false, leaves
    the other flags alone, and, after calling the provider, sends the
    Narration Sink exactly the activation of scene 0 (cancel, then speak
    its narration in the current language) when narration is enabled and
    the sink exists, and nothing when narration is disabled. *)
Theorem startShow_installs (evtName : option jsstring) (w : World) :
  isEmpty (topicOf evtName w) = false ->
  let local := generateScenesLocally toLowerCase (topicOf evtName w) in
  let w' := startShow toLowerCase evtName w in
  scenes w' = local
  /\ active w' = Int 0
  /\ playing w' = true
  /\ loading w' = false
  /\ (autoplay w', narrationEnabled w', quality w', locale w')
     = (autoplay w, narrationEnabled w, quality w, locale w)
  /\ (exists s0, nth_error (scenes w') 0 = Some s0
      /\ (narrationEnabled w = true -> speechSynthesis w = true ->
          log w' = log w ++ [ProviderCall (topicOf evtName w); SynthCancel;
                             SynthSpeak (narration s0) (locale w)]))
  /\ (narrationEnabled w = false ->
      log w' = log w ++ [ProviderCall (topicOf evtName w)]).
Proof.
  intros H local w'. subst w'. rewrite (startShow_returned _ _ H). cbn.
  fold local. repeat split.
  - pose proof (generateScenesLocally_length toLowerCase (topicOf evtName w)) as L.
    fold local in L. destruct local as [|s0 rest]; [discriminate|].
    exists s0. split; [reflexivity|]. intros -> ->. reflexivity.
  - intros ->. reflexivity.
Qed.

(** C6: when the topic is empty after trimming, [startShow] returns the
    world it was given: no state cell changes and the log gains no entry,
    so the provider is not called and no failure is reported; the commit
    that follows leaves the interval table alone as well. *)
Theorem startShow_blank_noop (evtName : option jsstring) (w : World) :
  isEmpty (topicOf evtName w) = true ->
  startShow toLowerCase evtName w = w
  /\ render w (startShow toLowerCase evtName w) = w
  /\ filter isProviderCall (log (startShow toLowerCase evtName w))
     = filter isProviderCall (log w)
  /\ filter isFailure (log (startShow toLowerCase evtName w))
     = filter isFailure (log w).
Proof.
  intros H. unfold startShow. rewrite (startShowWith_empty _ _ _ H).
  repeat split. unfold render. rewrite depsChanged_same; reflexivity.
Qed.

Lemma narrationCalls_no_failure l i enabled synth lang :
  filter isFailure (narrationCalls l i enabled synth lang) = [].
Proof. unfold narrationCalls. destruct (enabled && synth); reflexivity. Qed.

(** C10: for every event name the local provider returns exactly three
    scenes, each populated, with a camera style among the six enumerated
    values and a palette of four entries; so [startShow] on a topic that is
    non-empty after trimming installs three scenes and reports no failure:
    its log gains neither a console error nor an alert. *)
Theorem local_provider_total (eventName : jsstring)
    (evtName : option jsstring) (w : World) :
  (List.length (generateScenesLocally toLowerCase eventName) = 3%nat
   /\ forallb populated (generateScenesLocally toLowerCase eventName) = true
   /\ Forall (fun s => knownCameraStyle (cameraStyle s) = true
                       /\ List.length (palette s) = 4%nat)
        (generateScenesLocally toLowerCase eventName))
  /\ (isEmpty (topicOf evtName w) = false ->
      List.length (scenes (startShow toLowerCase evtName w)) = 3%nat
      /\ filter isFailure (log (startShow toLowerCase evtName w))
         = filter isFailure (log w)).
Proof.
  split; [split; [|split]|].
  - apply generateScenesLocally_length.
  - apply generateScenesLocally_populated.
  - pose proof (generateScenesLocally_populated toLowerCase eventName) as P.
    rewrite forallb_forall in P. apply Forall_forall. intros s Hs.
    specialize (P s Hs). unfold populated in P.
    repeat (apply andb_prop in P; destruct P as [P ?]).
    split; [assumption|]. now apply Nat.eqb_eq.
  - intros H. rewrite (startShow_returned _ _ H). cbn. split.
    + apply generateScenesLocally_length.
    + rewrite filter_app. cbn. rewrite narrationCalls_no_failure.
      now rewrite app_nil_r.
Qed.

End StartShow.

(** ** The commit and the interval table *)

Lemma render_frame (old new : World) :
  let w := render old new in
  (locale w, eventName w, scenes w, scenesId w, active w)
  = (locale new, eventName new, scenes new, scenesId new, active new)
  /\ (playing w, autoplay w, narrationEnabled w, quality w, loading w)
     = (playing new, autoplay new, narrationEnabled new, quality new, loading new)
  /\ (speechSynthesis w, now w, log w) = (speechSynthesis new, now new, log new).
Proof.
  unfold render, autoplayEffect, runCleanup, clearInterval, setInterval.
  destruct (depsChanged old new); [|auto].
  destruct new as [? ? ? ? ? pl au ? ? ? cl ? ? ? ? ?]; cbn.
  destruct cl; cbn;
    destruct (negb pl || negb au || (len scenes0 =? 0)); cbn; auto.
Qed.

Lemma rearm_armed (w : World) :
  (timers w = [] /\ effectCleanup w = None)
  \/ (exists iv, timers w = [iv] /\ effectCleanup w = Some (handle iv)) ->
  armed (autoplayEffect (runCleanup w)).
Proof.
  intros H.
  assert (T : timers (runCleanup w) = []).
  { unfold runCleanup, clearInterval.
    destruct H as [[T C]|[iv [T C]]]; rewrite C; [exact T|].
    destruct w; cbn in *. subst. cbn. now rewrite Nat.eqb_refl. }
  assert (F : (playing (runCleanup w), autoplay (runCleanup w), scenes (runCleanup w))
              = (playing w, autoplay w, scenes w)).
  { unfold runCleanup, clearInterval. destruct (effectCleanup w); destruct w; reflexivity. }
  revert T F. generalize (runCleanup w). clear H. intros v T F.
  unfold autoplayEffect, armed, autoplayCondition, setInterval, autoplayPeriod.
  destruct v as [? ? sc ? ? pl au ? ? ? ? ? tm ? nw ?]; cbn in *. subst tm.
  destruct pl, au; destruct (len sc =? 0) eqn:E; cbn; rewrite ?E;
    repeat split; auto; lia.
Qed.

Lemma armed_shape (w : World) :
  armed w ->
  (timers w = [] /\ effectCleanup w = None)
  \/ (exists iv, timers w = [iv] /\ effectCleanup w = Some (handle iv)).
Proof.
  unfold armed. destruct (timers w) as [|iv [|]]; [left|right|]; intuition eauto.
Qed.

(** A handler of the page touches neither the interval table nor the clock,
    and changes [scenes] only together with its identity. *)
Lemma render_armed (old new : World) :
  armed old ->
  timers new = timers old -> effectCleanup new = effectCleanup old ->
  now new = now old ->
  (scenesId new = scenesId old -> scenes new = scenes old) ->
  armed (render old new).
Proof.
  intros A T C N S. unfold render. destruct (depsChanged old new) eqn:D.
  - apply rearm_armed. rewrite T, C. now apply armed_shape.
  - apply depsChanged_false in D. destruct D as (P & U & I & R & L).
    specialize (S I). unfold armed, autoplayCondition in *.
    rewrite T, C, N, S, P, U, R, L. exact A.
Qed.

(** ** Index arithmetic *)

Lemma jsRem_next (a n : Z) :
  0 <= a -> 0 < n ->
  jsRem (jsAdd (Int a) 1) n = Int ((a + 1) mod n) /\ 0 <= (a + 1) mod n < n.
Proof.
  intros Ha Hn. cbn. destruct (Z.eqb_spec n 0) as [->|_]; [lia|].
  rewrite Z.rem_mod_nonneg by lia. split; [reflexivity|]. apply Z.mod_pos_bound; lia.
Qed.

Lemma jsRem_previous (a n : Z) :
  0 <= a -> 0 < n ->
  jsRem (jsAdd (jsAdd (Int a) (-1)) n) n = Int ((a - 1 + n) mod n)
  /\ 0 <= (a - 1 + n) mod n < n.
Proof.
  intros Ha Hn. cbn. destruct (Z.eqb_spec n 0) as [->|_]; [lia|].
  rewrite Z.rem_mod_nonneg by lia.
  replace (a + -1 + n) with (a - 1 + n) by lia.
  split; [reflexivity|]. apply Z.mod_pos_bound; lia.
Qed.

(** ** The interval callback *)

Lemma fire_single (h : nat) (iv : Interval) (w : World) :
  timers w = [iv] -> handle iv = h ->
  fire h w
  = mkWorld (locale w) (eventName w) (scenes w) (scenesId w)
      (jsRem (jsAdd (active w) 1) (len (cap_scenes iv)))
      (playing w) (autoplay w) (narrationEnabled w) (quality w) (loading w)
      (effectCleanup w) (speechSynthesis w)
      [mkInterval h (deadline iv + period iv) (period iv)
         (cap_scenes iv) (cap_narration iv) (cap_locale iv)]
      (nextHandle w) (deadline iv)
      (log w ++ narrationCalls (cap_scenes iv)
                  (jsRem (jsAdd (active w) 1) (len (cap_scenes iv)))
                  (cap_narration iv) (speechSynthesis w) (cap_locale iv)).
Proof.
  intros T H. unfold fire, findInterval. rewrite T. cbn. rewrite H, Nat.eqb_refl.
  unfold intervalCallback, withTimers, setActive, withNow, narrationCalls.
  rewrite !speak_eq. cbn. rewrite T. cbn. rewrite H, Nat.eqb_refl. reflexivity.
Qed.

Lemma enabled_fire_single (h : nat) (w : World) :
  armed w -> enabled w (TimerFires h) = true ->
  exists iv, timers w = [iv] /\ handle iv = h.
Proof.
  unfold armed, enabled, findInterval. intros A E.
  destruct (timers w) as [|iv [|]]; cbn in E; try discriminate; [|contradiction].
  exists iv. split; [reflexivity|].
  destruct (Nat.eqb_spec (handle iv) h); [assumption|discriminate].
Qed.

Section Invariants.

Variable toLowerCase : jsstring -> jsstring.


Lemma startShow_cases (evtName : option jsstring) (w : World) :
  (isEmpty (topicOf evtName w) = true /\ startShow toLowerCase evtName w = w)
  \/ (isEmpty (topicOf evtName w) = false
      /\ startShow toLowerCase evtName w
         = mkWorld (locale w) (eventName w)
             (generateScenesLocally toLowerCase (topicOf evtName w))
             (S (scenesId w)) (Int 0) true
             (autoplay w) (narrationEnabled w) (quality w) false (effectCleanup w)
             (speechSynthesis w) (timers w) (nextHandle w) (now w)
             (log w ++ ProviderCall (topicOf evtName w)
                :: narrationCalls (generateScenesLocally toLowerCase (topicOf evtName w))
                     (Int 0) (narrationEnabled w) (speechSynthesis w) (locale w))).
Proof.
  destruct (isEmpty (topicOf evtName w)) eqn:E; [left|right]; split; auto.
  - now apply startShowWith_empty.
  - now apply startShow_returned.
Qed.

Lemma handler_frame (op : Op) (w : World) :
  isClock op = false ->
  timers (handler toLowerCase op w) = timers w
  /\ effectCleanup (handler toLowerCase op w) = effectCleanup w
  /\ now (handler toLowerCase op w) = now w
  /\ speechSynthesis (handler toLowerCase op w) = speechSynthesis w
  /\ (scenesId (handler toLowerCase op w) = scenesId w -> scenes (handler toLowerCase op w) = scenes w).
Proof.
  destruct op; try discriminate; intros _; cbn [handler];
    try (repeat split; reflexivity).
  - destruct (startShow_cases None w) as [[_ ->]|[_ ->]]; cbn; repeat split; auto.
    intros H. exfalso. lia.
  - destruct (startShow_cases (Some (suggestionLabel (locale w) k))
                (setEventName (suggestionLabel (locale w) k) w)) as [[_ ->]|[_ ->]];
      cbn; repeat split; auto.
    intros H. exfalso. lia.
  - unfold onPrevious. rewrite speak_eq. cbn. repeat split; auto.
  - unfold onNext. rewrite speak_eq. cbn. repeat split; auto.
Qed.

Lemma dispatch_armed (op : Op) (w : World) :
  isClock op = false -> armed w -> armed (dispatch toLowerCase op w).
Proof.
  intros K A. unfold dispatch.
  destruct (handler_frame op w K) as (T & C & N & _ & S).
  now apply render_armed.
Qed.

Lemma dispatch_fire (h : nat) (iv : Interval) (w : World) :
  timers w = [iv] -> handle iv = h ->
  dispatch toLowerCase (TimerFires h) w = fire h w.
Proof.
  intros T H. unfold dispatch, render. cbn [handler].
  rewrite depsChanged_same; [reflexivity|..]; rewrite (fire_single h iv w T H); reflexivity.
Qed.

Lemma dispatch_wait (d : Z) (w : World) :
  dispatch toLowerCase (TimePasses d) w = withNow (now w + d) w.
Proof.
  unfold dispatch, render. cbn [handler].
  rewrite depsChanged_same; reflexivity.
Qed.

Lemma dispatch_clock_armed (op : Op) (w : World) :
  isClock op = true -> armed w -> enabled w op = true ->
  armed (dispatch toLowerCase op w).
Proof.
  destruct op; try discriminate; intros _ A E.
  - destruct (enabled_fire_single h w A E) as (iv & T & H).
    rewrite (dispatch_fire h iv w T H), (fire_single h iv w T H).
    unfold armed, autoplayCondition in *. rewrite T in A. cbn.
    destruct A as (C & K & P & S & R & L & D).
    rewrite H in C. unfold autoplayPeriod in *. repeat split; auto; lia.
  - rewrite dispatch_wait. unfold armed, autoplayCondition in *. cbn in *.
    destruct (timers w) as [|iv [|]]; auto.
    cbn in E. destruct A as (C & K & P & S & R & L & D).
    repeat split; auto; lia.
Qed.

(** Every operation the page offers keeps the interval table in agreement
    with the autoplay effect. *)
Lemma step_armed (op : Op) (w : World) :
  armed w -> enabled w op = true -> armed (dispatch toLowerCase op w).
Proof.
  intros A E. destruct (isClock op) eqn:K.
  - now apply dispatch_clock_armed.
  - now apply dispatch_armed.
Qed.

Lemma dispatch_scenes_active (op : Op) (w : World) :
  scenes (dispatch toLowerCase op w) = scenes (handler toLowerCase op w)
  /\ active (dispatch toLowerCase op w) = active (handler toLowerCase op w)
  /\ log (dispatch toLowerCase op w) = log (handler toLowerCase op w).
Proof.
  unfold dispatch.
  destruct (render_frame w (handler toLowerCase op w)) as (A & _ & C).
  cbv zeta in *. repeat split; congruence.
Qed.

Lemma step_activeInRange (op : Op) (w : World) :
  armed w -> activeInRange w -> enabled w op = true ->
  activeInRange (dispatch toLowerCase op w).
Proof.
  intros A R E. unfold activeInRange.
  destruct (dispatch_scenes_active op w) as (-> & -> & _).
  destruct op; cbn [handler]; cbn in E; try exact R.
  - (* ClickBegin *)
    destruct (startShow_cases None w) as [[_ ->]|[_ ->]]; [exact R|]. cbn.
    rewrite len_generateScenesLocally. intros _. exists 0. split; [reflexivity|lia].
  - (* ClickSuggestion *)
    destruct (startShow_cases (Some (suggestionLabel (locale w) k))
                (setEventName (suggestionLabel (locale w) k) w)) as [[_ ->]|[_ ->]].
    + exact R.
    + cbn. rewrite len_generateScenesLocally. intros _. exists 0.
      split; [reflexivity|lia].
  - (* ClickPrevious *)
    apply Z.ltb_lt in E. destruct (R E) as (a & Ha & Hr).
    unfold onPrevious. rewrite speak_eq. cbn. rewrite Ha. intros _.
    destruct (jsRem_previous a (len (scenes w))) as [-> B]; try lia. eauto.
  - (* ClickNext *)
    apply Z.ltb_lt in E. destruct (R E) as (a & Ha & Hr).
    unfold onNext. rewrite speak_eq. cbn. rewrite Ha. intros _.
    destruct (jsRem_next a (len (scenes w))) as [-> B]; try lia. eauto.
  - (* SlideSeek *)
    cbn. intros L. exists v. split; [reflexivity|]. lia.
  - (* TimerFires *)
    fold (enabled w (TimerFires h)) in E.
    destruct (enabled_fire_single h w A E) as (iv & T & H).
    rewrite (fire_single h iv w T H). cbn. intros L.
    unfold armed in A. rewrite T in A. destruct A as (_ & _ & _ & S & _).
    rewrite S. destruct (R L) as (a & Ha & Hr). rewrite Ha.
    destruct (jsRem_next a (len (scenes w))) as [-> B]; try lia. eauto.
Qed.

Lemma initial_armed (synth : bool) : armed (initialWorld synth).
Proof. cbv. auto. Qed.

Lemma initial_activeInRange (synth : bool) : activeInRange (initialWorld synth).
Proof. unfold activeInRange. cbn. lia. Qed.

Lemma steps_invariant (w w' : World) (ops : list Op) :
  steps toLowerCase w ops w' ->
  armed w /\ activeInRange w -> armed w' /\ activeInRange w'.
Proof.
  induction 1 as [w|w op ops w' E _ IH]; intros [A R]; [now split|].
  apply IH. split.
  - now apply step_armed.
  - now apply step_activeInRange.
Qed.

Lemma reachable_invariant (w : World) :
  reachable toLowerCase w -> armed w /\ activeInRange w.
Proof.
  intros (synth & ops & H). apply (steps_invariant _ _ _ H).
  split; [apply initial_armed|apply initial_activeInRange].
Qed.

Lemma reachable_step (w : World) (op : Op) :
  reachable toLowerCase w -> enabled w op = true ->
  reachable toLowerCase (dispatch toLowerCase op w).
Proof.
  intros (synth & ops & H) E. exists synth, (ops ++ [op]).
  induction H as [w|w o os w' E' _ IH].
  - cbn. eapply steps_cons; [exact E|apply steps_nil].
  - cbn. eapply steps_cons; [exact E'|]. now apply IH.
Qed.

(** C7: in every state the page can reach from its initial state,
    [0 <= active < len scenes] holds whenever [scenes] is non-empty, and
    every operation the page offers there (start of a show, previous, next,
    play/pause, the seek slider, a firing of the autoplay interval, the
    passing of time, and every flag, quality, language or text update)
    leads to a state where it holds again. *)
Theorem active_index_invariant (w : World) :
  reachable toLowerCase w ->
  activeInRange w
  /\ forall op, enabled w op = true -> activeInRange (dispatch toLowerCase op w).
Proof.
  intros H. destruct (reachable_invariant w H) as [A R]. split; [exact R|].
  intros op E. now apply step_activeInRange.
Qed.

End Invariants.

(** ** Previous and next *)

Lemma onNext_eq (w : World) :
  onNext w
  = mkWorld (locale w) (eventName w) (scenes w) (scenesId w)
      (jsRem (jsAdd (active w) 1) (len (scenes w)))
      (playing w) (autoplay w) (narrationEnabled w) (quality w) (loading w)
      (effectCleanup w) (speechSynthesis w) (timers w) (nextHandle w) (now w)
      (log w ++ narrationCalls (scenes w) (jsRem (jsAdd (active w) 1) (len (scenes w)))
                  (narrationEnabled w) (speechSynthesis w) (locale w)).
Proof. unfold onNext. rewrite speak_eq. reflexivity. Qed.

Lemma onPrevious_eq (w : World) :
  onPrevious w
  = mkWorld (locale w) (eventName w) (scenes w) (scenesId w)
      (jsRem (jsAdd (jsAdd (active w) (-1)) (len (scenes w))) (len (scenes w)))
      (playing w) (autoplay w) (narrationEnabled w) (quality w) (loading w)
      (effectCleanup w) (speechSynthesis w) (timers w) (nextHandle w) (now w)
      (log w ++ narrationCalls (scenes w)
                  (jsRem (jsAdd (jsAdd (active w) (-1)) (len (scenes w))) (len (scenes w)))
                  (narrationEnabled w) (speechSynthesis w) (locale w)).
Proof. unfold onPrevious. rewrite speak_eq. reflexivity. Qed.

Lemma iter_onNext (n : nat) (w : World) :
  0 < len (scenes w) -> active w = Int 0 ->
  scenes (Nat.iter n onNext w) = scenes w
  /\ active (Nat.iter n onNext w) = Int (Z.of_nat n mod len (scenes w)).
Proof.
  intros L A. induction n as [|n [IHs IHa]].
  - cbn. split; [reflexivity|]. rewrite A. reflexivity.
  - rewrite Nat.iter_succ, onNext_eq. cbn. rewrite IHs, IHa. split; [reflexivity|].
    destruct (jsRem_next (Z.of_nat n mod len (scenes w)) (len (scenes w))) as [-> _];
      [apply Z.mod_pos_bound; lia|lia|].
    f_equal. rewrite Z.add_mod_idemp_l by lia. f_equal. lia.
Qed.

(** C2: in a state with a non-empty sequence and a valid index, the next
    button sets [active] to [(active + 1) mod len] and the previous button
    to [(active - 1 + len) mod len], each leaving the sequence alone and
    sending the Narration Sink the activation of the scene arrived at; so
    [N] presses of next from index 0 end at [N mod len]; and with a single
    scene a press of next stays on index 0 and speaks that scene again. *)
Theorem navigation_wraps (w : World) (a : Z) :
  active w = Int a -> 0 <= a < len (scenes w) ->
  (active (onNext w) = Int ((a + 1) mod len (scenes w))
   /\ scenes (onNext w) = scenes w
   /\ log (onNext w)
      = log w ++ narrationCalls (scenes w) (Int ((a + 1) mod len (scenes w)))
                   (narrationEnabled w) (speechSynthesis w) (locale w))
  /\ (active (onPrevious w) = Int ((a - 1 + len (scenes w)) mod len (scenes w))
      /\ scenes (onPrevious w) = scenes w
      /\ log (onPrevious w)
         = log w ++ narrationCalls (scenes w)
                      (Int ((a - 1 + len (scenes w)) mod len (scenes w)))
                      (narrationEnabled w) (speechSynthesis w) (locale w))
  /\ (forall N : nat, a = 0 ->
        active (Nat.iter N onNext w) = Int (Z.of_nat N mod len (scenes w)))
  /\ (forall s, scenes w = [s] ->
        active (onNext w) = Int 0
        /\ (narrationEnabled w = true -> speechSynthesis w = true ->
            log (onNext w) = log w ++ [SynthCancel; SynthSpeak (narration s) (locale w)])).
Proof.
  intros A R.
  destruct (jsRem_next a (len (scenes w))) as [N _]; try lia.
  destruct (jsRem_previous a (len (scenes w))) as [P _]; try lia.
  rewrite onNext_eq, onPrevious_eq. cbn. rewrite A, N, P.
  repeat split; try reflexivity.
  - intros n ->. apply iter_onNext; [lia|exact A].
  - rewrite H in *. cbn in R. assert (a = 0) by lia. subst a. reflexivity.
  - intros -> ->. rewrite H in *. cbn in R. assert (a = 0) by lia. subst a.
    reflexivity.
Qed.

(** ** The camera callback *)

Section CameraFacts.

Import Camera.
Local Open Scope R_scope.

Lemma default_branch (mode : jsstring) (t : R) (rnd : Random3) (cam : Camera) :
  hasOwnBranch mode = false ->
  CameraRig mode t rnd cam
  = mkCamera (vec3 (sin (t * 0.1) * 6) 2 (cos (t * 0.1) * 6))
      (LookAt (vec3 (sin (t * 0.1) * 6) 2 (cos (t * 0.1) * 6)) (vec3 0 1.2 0)).
Proof.
  unfold hasOwnBranch, member, CameraRig. cbn [List.map existsb].
  intros H. repeat (apply orb_false_elim in H; destruct H as [? H]).
  repeat match goal with E : JsString.eqb mode _ = false |- _ => rewrite E; clear E end.
  reflexivity.
Qed.

(** C9 as amended: [push-pull] has no branch of its own; it takes the
    default branch, which is the one of [orbit-slow].  For every elapsed
    time, random draw and previous camera its step is the orbit-slow step:
    the position is assigned to [(6 sin(0.1 t), 2, 6 cos(0.1 t))] whatever
    the previous position was, and the camera looks at [(0, 1.2, 0)]. *)
Theorem push_pull_is_orbit (t : R) (rnd : Random3) (cam : Camera) :
  CameraRig (lit "push-pull") t rnd cam = CameraRig (lit "orbit-slow") t rnd cam
  /\ position (CameraRig (lit "push-pull") t rnd cam)
     = vec3 (sin (t * 0.1) * 6) 2 (cos (t * 0.1) * 6)
  /\ rotation (CameraRig (lit "push-pull") t rnd cam)
     = LookAt (vec3 (sin (t * 0.1) * 6) 2 (cos (t * 0.1) * 6)) (vec3 0 1.2 0).
Proof.
  rewrite !default_branch by reflexivity. repeat split.
Qed.

Lemma orbit_at_zero (mode : jsstring) (rnd : Random3) (cam : Camera) :
  hasOwnBranch mode = false ->
  position (CameraRig mode 0 rnd cam) = vec3 0 2 6.
Proof.
  intros H. rewrite default_branch by assumption. cbn.
  rewrite Rmult_0_l, sin_0, cos_0. f_equal; lra.
Qed.

Lemma dolly_in_step (t : R) (rnd : Random3) (cam : Camera) :
  CameraRig (lit "dolly-in") t rnd cam
  = mkCamera (lerp (position cam) (vec3 0 1.5 (4 + cos (t * 0.25) * 0.4)) (0.5 * 0.02))
      (rotation cam).
Proof. reflexivity. Qed.

(** C9, counterexample: at elapsed time 0, from the camera the canvas
    creates at [(0, 2, 8)], the push-pull step lands on [(0, 2, 6)], the
    dolly-in step on [(0, 1.995, 7.964)]; and no smoothing step with the
    dolly-in blend factor towards a target whose depth lies in the band
    [3.6 .. 4.4] that dolly-in (or its mirror image) sweeps gives the
    push-pull position. *)
Lemma push_pull_differs_from_dolly_in :
  position (CameraRig (lit "push-pull") 0 (rnd3 0 0 0) initialCamera) = vec3 0 2 6
  /\ position (CameraRig (lit "dolly-in") 0 (rnd3 0 0 0) initialCamera)
     = vec3 0 1.995 7.964
  /\ CameraRig (lit "push-pull") 0 (rnd3 0 0 0) initialCamera
     <> CameraRig (lit "dolly-in") 0 (rnd3 0 0 0) initialCamera
  /\ ~ exists target : Vector3,
         3.6 <= vz target <= 4.4
         /\ position (CameraRig (lit "push-pull") 0 (rnd3 0 0 0) initialCamera)
            = lerp (position initialCamera) target (0.5 * 0.02).
Proof.
  assert (P : position (CameraRig (lit "push-pull") 0 (rnd3 0 0 0) initialCamera)
              = vec3 0 2 6) by (now apply orbit_at_zero).
  assert (D : position (CameraRig (lit "dolly-in") 0 (rnd3 0 0 0) initialCamera)
              = vec3 0 1.995 7.964).
  { rewrite dolly_in_step. unfold lerp. cbn. rewrite Rmult_0_l, cos_0. f_equal; lra. }
  repeat split; try assumption.
  - intros E. rewrite E, D in P. injection P. intros. lra.
  - intros (target & B & E). rewrite P in E. unfold lerp in E. cbn in E.
    injection E. intros. lra.
Qed.

(** C3, counterexample: the provider [warpProvider] returns a scene whose
    camera style ["warp-speed"] is none of the six known values; [startShow]
    over it, on the topic ["Atlantis"] from the initial state, installs that
    scene (so the sequence is no longer the empty one it was) and reports
    no failure; and the camera callback, run on ["warp-speed"] at time 0,
    moves the camera to [(0, 2, 6)] through its default branch. *)
Lemma unknown_style_is_installed :
  let w := initialWorld true in
  let w' := startShowWith warpProvider (Some (lit "Atlantis")) w in
  knownCameraStyle (cameraStyle warpScene) = false
  /\ scenes w' = [warpScene]
  /\ scenes w' <> scenes w
  /\ active w' = Int 0
  /\ filter isFailure (log w') = []
  /\ position (CameraRig (cameraStyle warpScene) 0 (rnd3 0 0 0) initialCamera)
     = vec3 0 2 6.
Proof.
  cbv zeta. repeat split; try reflexivity.
  - discriminate.
  - now apply orbit_at_zero.
Qed.

Lemma unknown_has_no_branch (mode : jsstring) :
  knownCameraStyle mode = false -> hasOwnBranch mode = false.
Proof.
  unfold knownCameraStyle, hasOwnBranch, member, cameraStyles.
  cbn [List.map existsb]. intros H.
  repeat (apply orb_false_elim in H; destruct H as [? H]).
  repeat match goal with E : JsString.eqb mode _ = false |- _ => rewrite E; clear E end.
  reflexivity.
Qed.

(** C3 as amended: [startShow] does not inspect camera styles.  Whatever
    sequence the provider returns for a topic that is non-empty after
    trimming is installed as it is, with [active] 0, [playing] true,
    [loading] false and no failure reported, also when a scene of it has a
    camera style outside the six known values; the failure path is taken
    only when the provider throws, and then [scenes] and [active] stay as
    they were.  The camera callback has a default branch, the one of
    [orbit-slow], and every style outside the enumeration takes it. *)
Theorem startShow_installs_unchecked (provider : jsstring -> Provided)
    (evtName : option jsstring) (w : World) :
  isEmpty (topicOf evtName w) = false ->
  (forall local, provider (topicOf evtName w) = Returned local ->
     let w' := startShowWith provider evtName w in
     scenes w' = local /\ active w' = Int 0 /\ playing w' = true
     /\ loading w' = false
     /\ filter isFailure (log w') = filter isFailure (log w))
  /\ (provider (topicOf evtName w) = Thrown ->
      let w' := startShowWith provider evtName w in
      scenes w' = scenes w /\ active w' = active w /\ loading w' = false
      /\ filter isFailure (log w')
         = filter isFailure (log w) ++ [ConsoleError; Alert failureMessage])
  /\ (forall mode t rnd cam, knownCameraStyle mode = false ->
      CameraRig mode t rnd cam = CameraRig (lit "orbit-slow") t rnd cam).
Proof.
  intros H. split; [|split].
  - intros local P. rewrite (startShowWith_returned _ _ _ _ H P). cbn.
    repeat split. rewrite filter_app. cbn. rewrite narrationCalls_no_failure.
    now rewrite app_nil_r.
  - intros P. rewrite (startShowWith_thrown _ _ _ H P). cbn.
    repeat split. now rewrite filter_app.
  - intros mode t rnd cam K.
    rewrite (default_branch mode) by (now apply unknown_has_no_branch).
    now rewrite default_branch by reflexivity.
Qed.

Lemma startShow_installs_unchecked_witness :
  isEmpty (topicOf (Some (lit "Atlantis")) (initialWorld true)) = false
  /\ scenes (startShowWith warpProvider (Some (lit "Atlantis")) (initialWorld true))
     = [warpScene].
Proof.
  split; [reflexivity|].
  destruct (startShow_installs_unchecked warpProvider (Some (lit "Atlantis"))
              (initialWorld true) eq_refl) as [I _].
  exact (proj1 (I [warpScene] eq_refl)).
Defined.

End CameraFacts.

(** ** Narration switched off *)

Section Narration.

Variable toLowerCase : jsstring -> jsstring.

Lemma dispatch_flags (op : Op) (w : World) :
  narrationEnabled (dispatch toLowerCase op w) = narrationEnabled (handler toLowerCase op w)
  /\ autoplay (dispatch toLowerCase op w) = autoplay (handler toLowerCase op w)
  /\ playing (dispatch toLowerCase op w) = playing (handler toLowerCase op w).
Proof.
  unfold dispatch.
  destruct (render_frame w (handler toLowerCase op w)) as (_ & B & _).
  cbv zeta in *. repeat split; congruence.
Qed.

Lemma sinkCalls_app (w : World) (l : list Event) (es : list Event) :
  l = log w ++ es -> filter isSinkCall l = sinkCalls w ++ filter isSinkCall es.
Proof. intros ->. unfold sinkCalls. apply filter_app. Qed.

Lemma quiet_step (op : Op) (w : World) :
  armed w -> narrationEnabled w = false -> enabled w op = true ->
  op <> CheckNarration true ->
  sinkCalls (dispatch toLowerCase op w) = sinkCalls w
  /\ narrationEnabled (dispatch toLowerCase op w) = false.
Proof.
  intros A Q E N. unfold sinkCalls at 1.
  destruct (dispatch_scenes_active toLowerCase op w) as (_ & _ & ->).
  destruct (dispatch_flags op w) as (-> & _).
  destruct op; cbn [handler]; try (split; [reflexivity|exact Q]).
  - destruct (startShow_cases toLowerCase None w) as [[_ ->]|[_ ->]]; [now split|].
    cbn. rewrite Q. split; [|reflexivity].
    erewrite sinkCalls_app by reflexivity. cbn. apply app_nil_r.
  - destruct b; [congruence|]. now split.
  - destruct (startShow_cases toLowerCase (Some (suggestionLabel (locale w) k))
                (setEventName (suggestionLabel (locale w) k) w)) as [[_ ->]|[_ ->]];
      [now split|].
    cbn. rewrite Q. split; [|reflexivity].
    erewrite sinkCalls_app by reflexivity. cbn. apply app_nil_r.
  - rewrite onPrevious_eq. cbn. rewrite Q. split; [|reflexivity].
    erewrite sinkCalls_app by reflexivity. cbn. apply app_nil_r.
  - rewrite onNext_eq. cbn. rewrite Q. split; [|reflexivity].
    erewrite sinkCalls_app by reflexivity. cbn. apply app_nil_r.
  - destruct (enabled_fire_single h w A E) as (iv & T & H).
    rewrite (fire_single h iv w T H). cbn.
    unfold armed in A. rewrite T in A. destruct A as (_ & _ & _ & _ & R & _).
    rewrite R, Q. split; [|reflexivity].
    erewrite sinkCalls_app by reflexivity. cbn. apply app_nil_r.
Qed.

Lemma quiet_steps (w w' : World) (ops : list Op) :
  steps toLowerCase w ops w' ->
  armed w -> narrationEnabled w = false ->
  (forall b, In (CheckNarration b) ops -> b = false) ->
  sinkCalls w' = sinkCalls w /\ narrationEnabled w' = false.
Proof.
  induction 1 as [w|w op ops w' E _ IH]; intros A Q N; [now split|].
  assert (Nop : op <> CheckNarration true).
  { intros ->. specialize (N true (or_introl eq_refl)). discriminate. }
  destruct (quiet_step op w A Q E Nop) as [S Q'].
  destruct IH as [S' Q'']; auto.
  - now apply step_armed.
  - intros b Hb. apply N. now right.
  - split; congruence.
Qed.

Lemma checkNarration_log (b : bool) (w : World) :
  log (dispatch toLowerCase (CheckNarration b) w) = log w.
Proof. now destruct (dispatch_scenes_active toLowerCase (CheckNarration b) w) as (_ & _ & ->). Qed.

Lemma checkNarration_frame (b : bool) (w : World) :
  let w' := dispatch toLowerCase (CheckNarration b) w in
  scenes w' = scenes w /\ active w' = active w /\ locale w' = locale w
  /\ speechSynthesis w' = speechSynthesis w /\ narrationEnabled w' = b
  /\ log w' = log w.
Proof.
  unfold dispatch. cbn [handler].
  destruct (render_frame w (setNarration b w)) as (A & B & C).
  cbv zeta in *. cbn in A, B, C.
  injection A. injection B. injection C. intros. repeat split; assumption.
Qed.

(** C4 as amended: switching narration off is a field update that makes no
    call to the Narration Sink, so the cancel path is not invoked and an
    utterance in flight is not interrupted (nor does switching it on make a
    call); from then on, whatever operations and interval firings follow,
    the sink receives no call at all as long as narration is not switched on
    again; and once it is switched on again, the next press of the next
    button sends the sink the activation of the scene arrived at. *)
Theorem narration_off_is_silent (w : World) :
  reachable toLowerCase w ->
  (forall b, log (dispatch toLowerCase (CheckNarration b) w) = log w)
  /\ narrationEnabled (dispatch toLowerCase (CheckNarration false) w) = false
  /\ (forall ops w',
        steps toLowerCase (dispatch toLowerCase (CheckNarration false) w) ops w' ->
        (forall b, In (CheckNarration b) ops -> b = false) ->
        sinkCalls w' = sinkCalls w)
  /\ log (dispatch toLowerCase ClickNext (dispatch toLowerCase (CheckNarration true) w))
     = log w ++ narrationCalls (scenes w) (jsRem (jsAdd (active w) 1) (len (scenes w)))
                  true (speechSynthesis w) (locale w).
Proof.
  intros R. destruct (reachable_invariant toLowerCase w R) as [A _].
  assert (Q : narrationEnabled (dispatch toLowerCase (CheckNarration false) w) = false).
  { now destruct (dispatch_flags (CheckNarration false) w) as (-> & _). }
  split; [intros b; apply checkNarration_log|]. split; [exact Q|]. split.
  - intros ops w' S N.
    destruct (quiet_steps _ _ _ S) as [H _]; auto.
    + now apply step_armed.
    + rewrite H. unfold sinkCalls. now rewrite checkNarration_log.
  - destruct (checkNarration_frame true w) as (Sc & Ac & Lo & Sy & Na & Lg).
    destruct (dispatch_scenes_active toLowerCase ClickNext
                (dispatch toLowerCase (CheckNarration true) w)) as (_ & _ & ->).
    cbn [handler]. rewrite onNext_eq. cbn [log].
    now rewrite Sc, Ac, Lo, Sy, Na, Lg.
Qed.

End Narration.

(** C4, counterexample: after the topic ["moon"] is typed and the show
    begun, with narration on and the sink present, the log ends with the
    speak call for scene 0, so an utterance may be in flight; unchecking the
    narration box then leaves the log as it is: the number of cancel calls
    is still one, the one that preceded that speak call, not two. *)
Lemma narration_off_does_not_cancel :
  let w := run asciiLower [TypeEventName (lit "moon"); ClickBegin] (initialWorld true) in
  let w' := dispatch asciiLower (CheckNarration false) w in
  narrationEnabled w = true
  /\ List.map isSpeak (log w) = [false; false; true]
  /\ log w' = log w
  /\ List.length (filter isCancel (log w')) = 1%nat
  /\ log w' <> log w ++ [SynthCancel].
Proof.
  vm_compute. repeat split. discriminate.
Qed.

(** ** The autoplay scheduler *)

Section Autoplay.

Variable toLowerCase : jsstring -> jsstring.

Lemma armed_cases (w : World) :
  armed w ->
  (timers w = [] /\ effectCleanup w = None /\ autoplayCondition w = false)
  \/ (exists iv, timers w = [iv] /\ effectCleanup w = Some (handle iv)
        /\ period iv = autoplayPeriod
        /\ autoplayCondition w = true
        /\ cap_scenes iv = scenes w /\ cap_narration iv = narrationEnabled w
        /\ cap_locale iv = locale w
        /\ now w <= deadline iv <= now w + autoplayPeriod).
Proof.
  unfold armed. destruct (timers w) as [|iv [|]]; [left|right|]; intuition eauto.
  exists iv. intuition.
Qed.

Lemma autoplayCondition_true (w : World) :
  autoplayCondition w = true ->
  playing w = true /\ autoplay w = true /\ 0 < len (scenes w).
Proof.
  unfold autoplayCondition, len. intros H.
  apply andb_prop in H. destruct H as [H L].
  apply andb_prop in H. destruct H as [P U].
  repeat split; auto. lia.
Qed.

Lemma no_autoplay_no_timer (w : World) :
  armed w -> autoplay w = false -> timers w = [] /\ effectCleanup w = None.
Proof.
  intros A U. destruct (armed_cases w A) as [(T & C & _)|(iv & _ & _ & _ & K & _)].
  - now split.
  - apply autoplayCondition_true in K. destruct K as (_ & K & _). congruence.
Qed.

Lemma handler_autoplay (op : Op) (w : World) :
  armed w -> enabled w op = true -> op <> CheckAutoplay true -> autoplay w = false ->
  autoplay (dispatch toLowerCase op w) = false.
Proof.
  intros A E N U.
  destruct (dispatch_flags toLowerCase op w) as (_ & -> & _).
  destruct op; cbn [handler]; try exact U.
  - destruct (startShow_cases toLowerCase None w) as [[_ ->]|[_ ->]]; exact U.
  - destruct b; [congruence|reflexivity].
  - destruct (startShow_cases toLowerCase (Some (suggestionLabel (locale w) k))
                (setEventName (suggestionLabel (locale w) k) w)) as [[_ ->]|[_ ->]];
      exact U.
  - rewrite onPrevious_eq. exact U.
  - rewrite onNext_eq. exact U.
  - destruct (enabled_fire_single h w A E) as (iv & T & H).
    rewrite (fire_single h iv w T H). exact U.
Qed.

Lemma no_autoplay_steps (w w' : World) (ops : list Op) :
  steps toLowerCase w ops w' ->
  armed w -> autoplay w = false -> ~ In (CheckAutoplay true) ops ->
  timers w' = [] /\ forall h, ~ In (TimerFires h) ops.
Proof.
  induction 1 as [w|w op ops w' E _ IH]; intros A U N.
  - split; [now apply no_autoplay_no_timer|]. intros h [].
  - assert (Nop : op <> CheckAutoplay true) by (intros ->; apply N; now left).
    destruct IH as [T F].
    + now apply step_armed.
    + now apply handler_autoplay.
    + intros I. apply N. now right.
    + split; [exact T|]. intros h [->|I]; [|exact (F h I)].
      destruct (no_autoplay_no_timer w A U) as [T0 _].
      cbn in E. unfold findInterval in E. rewrite T0 in E. discriminate.
Qed.

Lemma autoplay_on_arms (w : World) :
  armed w -> autoplay w = false -> playing w = true -> 0 < len (scenes w) ->
  timers (dispatch toLowerCase (CheckAutoplay true) w)
  = [mkInterval (nextHandle w) (now w + autoplayPeriod) autoplayPeriod
       (scenes w) (narrationEnabled w) (locale w)].
Proof.
  intros A U P L. destruct (no_autoplay_no_timer w A U) as [T C].
  unfold dispatch, render, depsChanged. cbn [handler].
  destruct w as [? ? sc ? ? pl au ? ? ? cl ? tm ? ? ?]; cbn in *. subst.
  cbn. unfold autoplayEffect, setInterval. cbn.
  destruct (Z.eqb_spec (len sc) 0); [lia|]. reflexivity.
Qed.

(** C5: in every reachable state there is at most one live interval, it has
    period 6800, and it is there exactly while
    [playing && autoplay && len scenes > 0].  A firing happens at the
    interval's deadline, does what the next button does (index and speech),
    and puts the next deadline exactly 6800 later.  Unchecking autoplay
    removes the interval, and no firing occurs in any continuation that does
    not check it again.  Checking it again, while playing a non-empty
    sequence, creates an interval whose first firing is a full 6800 after
    the moment of checking. *)
Theorem autoplay_scheduler (w : World) :
  reachable toLowerCase w ->
  ((timers w = [] /\ autoplayCondition w = false)
   \/ (exists iv, timers w = [iv] /\ period iv = 6800
         /\ autoplayCondition w = true
         /\ now w <= deadline iv <= now w + 6800))
  /\ (forall h, enabled w (TimerFires h) = true ->
        playing w = true /\ autoplay w = true /\ 0 < len (scenes w)
        /\ exists iv, timers w = [iv] /\ handle iv = h
             /\ now (dispatch toLowerCase (TimerFires h) w) = deadline iv
             /\ List.map deadline (timers (dispatch toLowerCase (TimerFires h) w))
                = [deadline iv + 6800]
             /\ active (dispatch toLowerCase (TimerFires h) w) = active (onNext w)
             /\ log (dispatch toLowerCase (TimerFires h) w) = log (onNext w)
             /\ scenes (dispatch toLowerCase (TimerFires h) w) = scenes w)
  /\ (timers (dispatch toLowerCase (CheckAutoplay false) w) = []
      /\ forall ops w',
           steps toLowerCase (dispatch toLowerCase (CheckAutoplay false) w) ops w' ->
           ~ In (CheckAutoplay true) ops ->
           timers w' = [] /\ forall h, ~ In (TimerFires h) ops)
  /\ (autoplay w = false -> playing w = true -> 0 < len (scenes w) ->
      exists h, timers (dispatch toLowerCase (CheckAutoplay true) w)
                = [mkInterval h (now w + 6800) 6800
                     (scenes w) (narrationEnabled w) (locale w)]).
Proof.
  intros R. destruct (reachable_invariant toLowerCase w R) as [A _].
  split; [|split; [|split]].
  - destruct (armed_cases w A) as [(T & _ & K)|(iv & T & _ & P & K & _ & _ & _ & D)].
    + now left.
    + right. exists iv. auto.
  - intros h E. destruct (enabled_fire_single h w A E) as (iv & T & H).
    destruct (armed_cases w A) as [(T0 & _)|(iv' & T' & _ & P & K & S & N & L & D)];
      [congruence|].
    assert (iv' = iv) by congruence. subst iv'.
    destruct (autoplayCondition_true w K) as (Pl & Au & Ln).
    repeat split; auto. exists iv.
    rewrite (dispatch_fire toLowerCase h iv w T H), (fire_single h iv w T H), onNext_eq.
    cbn. rewrite S, N, L, P. repeat split; auto.
  - assert (A' : armed (dispatch toLowerCase (CheckAutoplay false) w))
      by (now apply step_armed).
    assert (U : autoplay (dispatch toLowerCase (CheckAutoplay false) w) = false)
      by (now destruct (dispatch_flags toLowerCase (CheckAutoplay false) w) as (_ & -> & _)).
    split; [now apply no_autoplay_no_timer|].
    intros ops w' S N. now apply (no_autoplay_steps _ _ _ S).
  - intros U P L. exists (nextHandle w). now apply autoplay_on_arms.
Qed.

End Autoplay.

(** ** Quality and the schedule *)

Section Quality.

Variable toLowerCase : jsstring -> jsstring.

Lemma setQuality_erase (w : World) : setQuality (quality w) (eraseQuality w) = w.
Proof. now destruct w. Qed.

Lemma erase_setQuality (q : Z) (w : World) :
  eraseQuality (setQuality q w) = eraseQuality w.
Proof. reflexivity. Qed.

Lemma speak_setQuality (q : Z) text enabled lang (w : World) :
  speak text enabled lang (setQuality q w) = setQuality q (speak text enabled lang w).
Proof. rewrite !speak_eq. reflexivity. Qed.

Lemma render_setQuality (q : Z) (old new : World) :
  render (setQuality q old) (setQuality q new) = setQuality q (render old new).
Proof.
  unfold render. change (depsChanged (setQuality q old) (setQuality q new))
    with (depsChanged old new).
  destruct (depsChanged old new); [|reflexivity].
  unfold autoplayEffect, runCleanup. cbn.
  destruct (effectCleanup new); cbn;
    destruct (negb (playing new) || negb (autoplay new) || (len (scenes new) =? 0));
    reflexivity.
Qed.

Lemma startShow_setQuality (q : Z) evtName (w : World) :
  startShow toLowerCase evtName (setQuality q w)
  = setQuality q (startShow toLowerCase evtName w).
Proof.
  unfold startShow, startShowWith. cbn.
  destruct (isEmpty _); [reflexivity|]. rewrite !speak_eq. reflexivity.
Qed.

Lemma fire_setQuality (q : Z) (h : nat) (w : World) :
  fire h (setQuality q w) = setQuality q (fire h w).
Proof.
  unfold fire, findInterval. cbn. destruct (find _ (timers w)); [|reflexivity].
  unfold intervalCallback. rewrite !speak_eq. reflexivity.
Qed.

Lemma handler_setQuality (q : Z) (op : Op) (w : World) :
  (forall q', op <> SlideQuality q') ->
  handler toLowerCase op (setQuality q w) = setQuality q (handler toLowerCase op w).
Proof.
  intros N. destruct op; cbn [handler]; try reflexivity.
  - apply startShow_setQuality.
  - now elim (N q0).
  - apply (startShow_setQuality q _ (setEventName _ w)).
  - unfold onPrevious. rewrite !speak_eq. reflexivity.
  - unfold onNext. rewrite !speak_eq. reflexivity.
  - apply fire_setQuality.
Qed.

Lemma dispatch_setQuality (q : Z) (op : Op) (w : World) :
  (forall q', op <> SlideQuality q') ->
  dispatch toLowerCase op (setQuality q w) = setQuality q (dispatch toLowerCase op w).
Proof.
  intros N. unfold dispatch. rewrite (handler_setQuality q op w N).
  apply render_setQuality.
Qed.

Lemma dispatch_slideQuality (q : Z) (w : World) :
  dispatch toLowerCase (SlideQuality q) w = setQuality q w.
Proof. unfold dispatch, render. cbn [handler]. now rewrite depsChanged_same. Qed.

Lemma enabled_setQuality (q : Z) (op : Op) (w : World) :
  enabled (setQuality q w) op = enabled w op.
Proof. destruct op; reflexivity. Qed.

Lemma enabled_erase (op : Op) (w1 w2 : World) :
  eraseQuality w1 = eraseQuality w2 -> enabled w1 op = enabled w2 op.
Proof.
  intros H. rewrite <- (enabled_setQuality 0 op w1), <- (enabled_setQuality 0 op w2).
  unfold eraseQuality in H. now rewrite H.
Qed.

Lemma erase_fields (a b : World) :
  eraseQuality a = eraseQuality b ->
  sinkCalls a = sinkCalls b
  /\ (scenes a, active a) = (scenes b, active b)
  /\ (playing a, autoplay a, narrationEnabled a)
     = (playing b, autoplay b, narrationEnabled b).
Proof.
  intros H.
  pose proof (f_equal log H) as L. pose proof (f_equal scenes H) as S.
  pose proof (f_equal active H) as A. pose proof (f_equal playing H) as P.
  pose proof (f_equal autoplay H) as U. pose proof (f_equal narrationEnabled H) as N.
  cbn in L, S, A, P, U, N. unfold sinkCalls.
  rewrite L, S, A, P, U, N. repeat split.
Qed.

Lemma step_erase (o1 o2 : Op) (w1 w2 : World) :
  sameUpToQuality o1 o2 -> eraseQuality w1 = eraseQuality w2 ->
  eraseQuality (dispatch toLowerCase o1 w1) = eraseQuality (dispatch toLowerCase o2 w2).
Proof.
  intros S H.
  assert (Q : (exists q1 q2, o1 = SlideQuality q1 /\ o2 = SlideQuality q2)
              \/ (o1 = o2 /\ forall q', o1 <> SlideQuality q')).
  { destruct o1; cbn in S; try (right; split; [exact S|discriminate]).
    destruct o2; try discriminate. left. eauto. }
  destruct Q as [(q1 & q2 & -> & ->)|[<- N]].
  - rewrite !dispatch_slideQuality. exact H.
  - rewrite <- (setQuality_erase w1), <- (setQuality_erase w2).
    rewrite !dispatch_setQuality by assumption.
    rewrite !erase_setQuality. now rewrite H.
Qed.

(** C8: take two runs of the page whose operations (clicks, slider moves,
    interval firings, waits) agree except for the levels chosen on the
    quality slider, all within 0..2, started in states that agree except
    for [quality].  Whenever the first run is possible so is the second, and
    they end in states that agree on everything but [quality]: sequence,
    index, flags, interval table, clock and the log of narration calls.
    Since every prefix of such runs is such a run, the two evolutions agree
    step by step.  What [quality] does reach are the rendering knobs. *)
Theorem quality_does_not_affect_schedule (ops1 ops2 : list Op) (w1 w2 w1' : World) :
  Forall2 sameUpToQuality ops1 ops2 ->
  Forall qualityInRange ops2 ->
  eraseQuality w1 = eraseQuality w2 ->
  steps toLowerCase w1 ops1 w1' ->
  steps toLowerCase w2 ops2 (run toLowerCase ops2 w2)
  /\ eraseQuality (run toLowerCase ops2 w2) = eraseQuality w1'
  /\ (sinkCalls (run toLowerCase ops2 w2) = sinkCalls w1'
      /\ (scenes (run toLowerCase ops2 w2), active (run toLowerCase ops2 w2))
         = (scenes w1', active w1')
      /\ (playing (run toLowerCase ops2 w2), autoplay (run toLowerCase ops2 w2),
          narrationEnabled (run toLowerCase ops2 w2))
         = (playing w1', autoplay w1', narrationEnabled w1')).
Proof.
  intros F. revert w1 w2 w1'.
  induction F as [|o1 o2 l1 l2 S _ IH]; intros w1 w2 w1' G H St.
  - inversion St; subst. cbn. split; [constructor|].
    assert (E : eraseQuality w2 = eraseQuality w1') by congruence.
    split; [exact E|]. now apply erase_fields.
  - inversion St as [|? ? ? ? E St']; subst. inversion G as [|? ? G1 G2]; subst.
    cbn [run fold_left].
    assert (E2 : enabled w2 o2 = true).
    { destruct o1, o2; cbn in S; try discriminate; try (injection S; intros; subst);
        try (rewrite <- (enabled_erase _ w1 w2 H); exact E).
      cbn in G1 |- *. lia. }
    destruct (IH (dispatch toLowerCase o1 w1) (dispatch toLowerCase o2 w2) w1' G2
                (step_erase o1 o2 w1 w2 S H) St') as (R1 & R2 & R3).
    split; [|split; assumption].
    eapply steps_cons; [exact E2|exact R1].
Qed.

End Quality.

(** ** Runs *)

Lemma steps_run (toLowerCase : jsstring -> jsstring) (ops : list Op) (w : World) :
  allEnabled toLowerCase ops w = true ->
  steps toLowerCase w ops (run toLowerCase ops w).
Proof.
  revert w. induction ops as [|op ops IH]; intros w H; [constructor|].
  cbn in H. apply andb_prop in H. destruct H as [E H].
  eapply steps_cons; [exact E|]. now apply IH.
Qed.

Lemma reachable_run (toLowerCase : jsstring -> jsstring) (synth : bool) (ops : list Op) :
  allEnabled toLowerCase ops (initialWorld synth) = true ->
  reachable toLowerCase (run toLowerCase ops (initialWorld synth)).
Proof. intros H. exists synth, ops. now apply steps_run. Qed.

Lemma moonShow_reachable : reachable asciiLower moonShow.
Proof. apply reachable_run. vm_compute. reflexivity. Qed.

(** ** Sample runs *)

Example provider_moon :
  List.map title (generateScenesLocally asciiLower (lit "Moon Landing"))
  = List.map lit ["Trans-Earth Injection"; "The Eagle Descends"; "Footprints"]%string.
Proof. reflexivity. Qed.

Example provider_fallback :
  List.map title (generateScenesLocally asciiLower (lit "Alunizaje"))
  = List.map lit ["Prologue of Alunizaje"; "Turning Point of Alunizaje";
                  "Epilogue of Alunizaje"]%string.
Proof. reflexivity. Qed.

Example moon_show :
  let w := run asciiLower [TypeEventName (lit "  Apollo 11 "); ClickBegin; ClickNext;
                           TimePasses 100; ClickNext; ClickNext]
               (initialWorld true) in
  (active w, List.length (log w), List.map deadline (timers w), loading w)
  = (Int 0, 9%nat, [6800], false).
Proof. vm_compute. reflexivity. Qed.

Example blank_topics :
  (trim (lit "   "), trim [], trim (lit "  Apollo 11 ")) = ([], [], lit "Apollo 11").
Proof. reflexivity. Qed.

Example quality_reaches_rendering :
  (List.map Render.multisampling [0; 1; 2],
   List.map Render.keyLightIntensity [0; 1; 2],
   List.map Render.bloomIntensity [0; 2])
  = ([0; 2; 4], [7 # 10; 1; 1]%Q, [(6 # 10) + (6 # 10) * 0; (6 # 10) + (6 # 10) * 2]%Q).
Proof. reflexivity. Qed.

Example single_scene_next :
  let w := onNext (onNext (startShowWith warpProvider (Some (lit "x")) (initialWorld true))) in
  (active w, List.length (filter isSpeak (log w))) = (Int 0, 3%nat).
Proof. vm_compute. reflexivity. Qed.

(** ** The statements at concrete inputs *)

Lemma startShow_installs_witness :
  isEmpty (topicOf (Some (lit "  Apollo 11 ")) moonShow) = false
  /\ active (startShow asciiLower (Some (lit "  Apollo 11 ")) moonShow) = Int 0.
Proof.
  split; [reflexivity|].
  destruct (startShow_installs asciiLower (Some (lit "  Apollo 11 ")) moonShow eq_refl)
    as (_ & A & _).
  exact A.
Defined.

Lemma navigation_wraps_witness :
  active moonShow = Int 0 /\ 0 <= 0 < len (scenes moonShow)
  /\ active (onNext moonShow) = Int ((0 + 1) mod len (scenes moonShow)).
Proof.
  split; [reflexivity|]. split; [vm_compute; split; [discriminate|reflexivity]|].
  refine (proj1 (proj1 (navigation_wraps moonShow 0 eq_refl _))).
  vm_compute; split; [discriminate|reflexivity].
Defined.

Lemma narration_off_is_silent_witness :
  narrationEnabled (dispatch asciiLower (CheckNarration false) moonShow) = false
  /\ sinkCalls (run asciiLower [ClickNext; TimePasses 6800; TimerFires 1; ClickPrevious]
                 (dispatch asciiLower (CheckNarration false) moonShow))
     = sinkCalls moonShow.
Proof.
  destruct (narration_off_is_silent asciiLower moonShow moonShow_reachable)
    as (_ & Q & S & _).
  split; [exact Q|].
  apply (S [ClickNext; TimePasses 6800; TimerFires 1; ClickPrevious]).
  - apply steps_run. vm_compute. reflexivity.
  - intros b [H|[H|[H|[H|[]]]]]; discriminate.
Defined.

Lemma autoplay_scheduler_witness :
  timers (dispatch asciiLower (CheckAutoplay false) moonShow) = [].
Proof.
  exact (proj1 (proj1 (proj2 (proj2
           (autoplay_scheduler asciiLower moonShow moonShow_reachable))))).
Defined.

Lemma startShow_blank_noop_witness :
  isEmpty (topicOf (Some (lit "   ")) moonShow) = true
  /\ isEmpty (topicOf None (initialWorld true)) = true
  /\ startShow asciiLower (Some (lit "   ")) moonShow = moonShow
  /\ startShow asciiLower None (initialWorld true) = initialWorld true.
Proof.
  split; [reflexivity|]. split; [reflexivity|]. split.
  - exact (proj1 (startShow_blank_noop asciiLower (Some (lit "   ")) moonShow eq_refl)).
  - exact (proj1 (startShow_blank_noop asciiLower None (initialWorld true) eq_refl)).
Defined.

Lemma active_index_invariant_witness :
  activeInRange moonShow
  /\ activeInRange (dispatch asciiLower (SlideSeek 2) moonShow).
Proof.
  destruct (active_index_invariant asciiLower moonShow moonShow_reachable) as [A B].
  split; [exact A|]. apply B. reflexivity.
Defined.

Lemma quality_does_not_affect_schedule_witness :
  let ops q := [SlideQuality q; TypeEventName (lit "egypt"); ClickBegin;
                TimePasses 6800; TimerFires 0; ClickPrevious] in
  eraseQuality (run asciiLower (ops 2) (initialWorld true))
  = eraseQuality (run asciiLower (ops 0) (initialWorld true)).
Proof.
  intros ops.
  refine (proj1 (proj2 (quality_does_not_affect_schedule asciiLower (ops 0) (ops 2)
            (initialWorld true) (initialWorld true) _ _ _ eq_refl _))).
  - repeat constructor.
  - repeat constructor; cbn; lia.
  - apply steps_run. vm_compute. reflexivity.
Defined.

Lemma local_provider_total_witness :
  isEmpty (topicOf (Some (lit "Alunizaje")) (initialWorld true)) = false
  /\ List.length (scenes (startShow asciiLower (Some (lit "Alunizaje")) (initialWorld true)))
     = 3%nat.
Proof.
  split; [reflexivity|].
  exact (proj1 (proj2 (local_provider_total asciiLower [] (Some (lit "Alunizaje"))
                         (initialWorld true)) eq_refl)).
Defined.

(** * Further properties of the component *)

Section Reachable.

Variable toLowerCase : jsstring -> jsstring.

Lemma steps_preserve (P : World -> Prop) :
  (forall w op, armed w -> activeInRange w -> P w -> enabled w op = true ->
                P (dispatch toLowerCase op w)) ->
  forall w ops w', steps toLowerCase w ops w' ->
  armed w -> activeInRange w -> P w -> P w'.
Proof.
  intros Step w ops w' H.
  induction H as [w|w op ops w' E _ IH]; intros A R p; [exact p|].
  apply IH.
  - now apply step_armed.
  - now apply step_activeInRange.
  - now apply Step.
Qed.

Lemma reachable_preserve (P : World -> Prop) :
  (forall synth, P (initialWorld synth)) ->
  (forall w op, armed w -> activeInRange w -> P w -> enabled w op = true ->
                P (dispatch toLowerCase op w)) ->
  forall w, reachable toLowerCase w -> P w.
Proof.
  intros Init Step w (synth & ops & H).
  apply (steps_preserve P Step _ _ _ H).
  - apply initial_armed.
  - apply initial_activeInRange.
  - apply Init.
Qed.

Lemma dispatch_cells (op : Op) (w : World) :
  loading (dispatch toLowerCase op w) = loading (handler toLowerCase op w)
  /\ scenes (dispatch toLowerCase op w) = scenes (handler toLowerCase op w)
  /\ active (dispatch toLowerCase op w) = active (handler toLowerCase op w)
  /\ playing (dispatch toLowerCase op w) = playing (handler toLowerCase op w)
  /\ log (dispatch toLowerCase op w) = log (handler toLowerCase op w)
  /\ locale (dispatch toLowerCase op w) = locale (handler toLowerCase op w)
  /\ speechSynthesis (dispatch toLowerCase op w)
     = speechSynthesis (handler toLowerCase op w)
  /\ now (dispatch toLowerCase op w) = now (handler toLowerCase op w)
  /\ eventName (dispatch toLowerCase op w) = eventName (handler toLowerCase op w).
Proof.
  unfold dispatch.
  destruct (render_frame w (handler toLowerCase op w)) as (A & B & C).
  cbv zeta in *. injection A. injection B. injection C. intros.
  repeat split; assumption.
Qed.

Lemma settled_provider (name : jsstring) (w : World) (lg : list Event) :
  lg <> [] ->
  settled (mkWorld (locale w) (eventName w) (generateScenesLocally toLowerCase name)
             (S (scenesId w)) (Int 0) true (autoplay w) (narrationEnabled w)
             (quality w) false (effectCleanup w) (speechSynthesis w) (timers w)
             (nextHandle w) (now w) lg).
Proof.
  intros N. unfold settled. cbn.
  pose proof (generateScenesLocally_length toLowerCase name) as L.
  split; [reflexivity|]. split; [apply generateScenesLocally_populated|].
  split; [now right|].
  intros E. rewrite E in L. discriminate.
Qed.

Lemma len_pos_nonempty (l : list Scene) : 0 < len l -> l <> [].
Proof. intros H ->. cbn in H. lia. Qed.

Lemma step_settled (op : Op) (w : World) :
  armed w -> activeInRange w -> settled w -> enabled w op = true ->
  settled (dispatch toLowerCase op w).
Proof.
  intros A R (L & P & T & Z0) E. unfold settled.
  destruct (dispatch_cells op w) as (-> & -> & -> & -> & -> & _).
  destruct op; cbn [handler]; cbn in E.
  1-2, 4-6: (repeat split; auto; apply Z0; assumption).
  - (* ClickBegin *)
    destruct (startShow_cases toLowerCase None w) as [[_ ->]|[_ ->]].
    + repeat split; auto; apply Z0; assumption.
    + apply settled_provider. now destruct (log w).
  - (* ClickSuggestion *)
    destruct (startShow_cases toLowerCase (Some (suggestionLabel (locale w) k))
                (setEventName (suggestionLabel (locale w) k) w)) as [[_ ->]|[_ ->]].
    + repeat split; auto; apply Z0; assumption.
    + apply (settled_provider _ (setEventName (suggestionLabel (locale w) k) w)).
      cbn. now destruct (log w).
  - (* ClickPrevious *)
    apply Z.ltb_lt in E. apply len_pos_nonempty in E.
    rewrite onPrevious_eq. cbn. repeat split; auto; intros; contradiction.
  - (* ClickPlayPause *)
    apply Z.ltb_lt in E. apply len_pos_nonempty in E.
    cbn. repeat split; auto; intros; contradiction.
  - (* ClickNext *)
    apply Z.ltb_lt in E. apply len_pos_nonempty in E.
    rewrite onNext_eq. cbn. repeat split; auto; intros; contradiction.
  - (* SlideSeek *)
    assert (E' : scenes w <> []) by (apply len_pos_nonempty; lia).
    cbn. repeat split; auto; intros; contradiction.
  - (* TimerFires *)
    fold (enabled w (TimerFires h)) in E.
    destruct (enabled_fire_single h w A E) as (iv & Tm & H).
    rewrite (fire_single h iv w Tm H). cbn.
    unfold armed in A. rewrite Tm in A. destruct A as (_ & K & _).
    assert (E' : scenes w <> [])
      by (apply len_pos_nonempty; now destruct (autoplayCondition_true w K) as (_ & _ & Ln)).
    repeat split; auto; intros; contradiction.
  - (* TimePasses *)
    cbn. repeat split; auto; apply Z0; assumption.
Qed.

Lemma initial_settled (synth : bool) : settled (initialWorld synth).
Proof. unfold settled. cbn. repeat split; auto. Qed.

Lemma reachable_settled (w : World) : reachable toLowerCase w -> settled w.
Proof.
  apply (reachable_preserve settled); [apply initial_settled|].
  intros. now apply step_settled.
Qed.

Lemma at_index_valid (l : list Scene) (a : Z) :
  0 <= a < len l -> exists s, at_index l (Int a) = Some s /\ In s l.
Proof.
  intros H. unfold at_index, len in *.
  destruct (Z.ltb_spec a 0); [lia|].
  destruct (nth_error l (Z.to_nat a)) as [s|] eqn:E.
  - exists s. split; [reflexivity|]. now apply nth_error_In with (Z.to_nat a).
  - apply nth_error_None in E. lia.
Qed.

Lemma populated_at (l : list Scene) (a : Z) :
  forallb populated l = true -> 0 <= a < len l ->
  exists s, at_index l (Int a) = Some s /\ populated s = true.
Proof.
  intros P H. destruct (at_index_valid l a H) as (s & E & I).
  exists s. split; [exact E|]. rewrite forallb_forall in P. now apply P.
Qed.

Lemma scenes_step (op : Op) (w : World) :
  armed w -> enabled w op = true ->
  scenes (dispatch toLowerCase op w) = scenes w
  \/ exists name, isEmpty name = false
       /\ scenes (dispatch toLowerCase op w) = generateScenesLocally toLowerCase name.
Proof.
  intros A E. destruct (dispatch_cells op w) as (_ & -> & _).
  destruct op; cbn [handler]; try (now left).
  - destruct (startShow_cases toLowerCase None w) as [[_ ->]|[N ->]]; [now left|].
    right. eauto.
  - destruct (startShow_cases toLowerCase (Some (suggestionLabel (locale w) k))
                (setEventName (suggestionLabel (locale w) k) w)) as [[_ ->]|[N ->]];
      [now left|].
    right. eauto.
  - rewrite onPrevious_eq. now left.
  - rewrite onNext_eq. now left.
  - destruct (enabled_fire_single h w A E) as (iv & Tm & H).
    rewrite (fire_single h iv w Tm H). now left.
Qed.

Lemma synth_step (op : Op) (w : World) :
  armed w -> enabled w op = true ->
  speechSynthesis (dispatch toLowerCase op w) = speechSynthesis w.
Proof.
  intros A E. destruct (dispatch_cells op w) as (_ & _ & _ & _ & _ & _ & -> & _).
  destruct (isClock op) eqn:K.
  - destruct op; try discriminate; [|reflexivity].
    destruct (enabled_fire_single h w A E) as (iv & Tm & H).
    cbn [handler]. now rewrite (fire_single h iv w Tm H).
  - now destruct (handler_frame toLowerCase op w K) as (_ & _ & _ & S & _).
Qed.

(** What one operation adds to the log: at most one provider call, then at
    most one activation, and that of a scene that is there. *)
Lemma log_step (op : Op) (w : World) :
  armed w -> activeInRange w -> settled w -> enabled w op = true ->
  exists pre l i e lang,
    log (dispatch toLowerCase op w)
    = log w ++ pre ++ narrationCalls l i e (speechSynthesis w) lang
    /\ forallb isProviderCall pre = true
    /\ (e = true -> exists s, at_index l i = Some s /\ populated s = true).
Proof.
  intros A R (_ & P & _ & _) E.
  destruct (dispatch_cells op w) as (_ & _ & _ & _ & -> & _).
  assert (Quiet : forall v : World, log v = log w ->
            exists pre l i e lang,
              log v = log w ++ pre ++ narrationCalls l i e (speechSynthesis w) lang
              /\ forallb isProviderCall pre = true
              /\ (e = true -> exists s, at_index l i = Some s /\ populated s = true)).
  { intros v ->. exists [], [], NaN, false, EnUS. cbn. rewrite app_nil_r.
    repeat split. discriminate. }
  assert (Begin : forall evt v, log v = log w -> speechSynthesis v = speechSynthesis w ->
            exists pre l i e lang,
              log (startShow toLowerCase evt v)
              = log w ++ pre ++ narrationCalls l i e (speechSynthesis w) lang
              /\ forallb isProviderCall pre = true
              /\ (e = true -> exists s, at_index l i = Some s /\ populated s = true)).
  { intros evt v Lv Sv.
    destruct (startShow_cases toLowerCase evt v) as [[_ ->]|[_ ->]]; [now apply Quiet|].
    exists [ProviderCall (topicOf evt v)],
           (generateScenesLocally toLowerCase (topicOf evt v)), (Int 0),
           (narrationEnabled v), (locale v).
    cbn [log]. rewrite Lv, Sv. split; [reflexivity|]. split; [reflexivity|].
    intros _. apply populated_at; [apply generateScenesLocally_populated|].
    rewrite len_generateScenesLocally. lia. }
  assert (Move : forall idx a, 0 <= a < len (scenes w) -> idx = Int a ->
            exists pre l i e lang,
              log w ++ narrationCalls (scenes w) idx (narrationEnabled w)
                         (speechSynthesis w) (locale w)
              = log w ++ pre ++ narrationCalls l i e (speechSynthesis w) lang
              /\ forallb isProviderCall pre = true
              /\ (e = true -> exists s, at_index l i = Some s /\ populated s = true)).
  { intros idx a Ha ->. exists [], (scenes w), (Int a), (narrationEnabled w), (locale w).
    split; [reflexivity|]. split; [reflexivity|]. intros _. now apply populated_at. }
  destruct op; cbn [handler]; cbn in E; try (apply Quiet; reflexivity).
  - apply Begin; reflexivity.
  - apply Begin; reflexivity.
  - apply Z.ltb_lt in E. destruct (R E) as (a & Ha & Hr).
    rewrite onPrevious_eq. cbn [log]. rewrite Ha.
    destruct (jsRem_previous a (len (scenes w))) as [-> B]; try lia.
    eapply Move; [exact B|reflexivity].
  - apply Z.ltb_lt in E. destruct (R E) as (a & Ha & Hr).
    rewrite onNext_eq. cbn [log]. rewrite Ha.
    destruct (jsRem_next a (len (scenes w))) as [-> B]; try lia.
    eapply Move; [exact B|reflexivity].
  - fold (enabled w (TimerFires h)) in E.
    destruct (enabled_fire_single h w A E) as (iv & Tm & H).
    rewrite (fire_single h iv w Tm H). cbn [log].
    destruct (armed_cases w A) as [(T0 & _)|(iv' & T' & _ & _ & K & S & N & L & _)];
      [congruence|].
    assert (iv' = iv) by congruence. subst iv'. rewrite S, N, L.
    destruct (autoplayCondition_true w K) as (_ & _ & Ln).
    destruct (R Ln) as (a & Ha & Hr). rewrite Ha.
    destruct (jsRem_next a (len (scenes w))) as [-> B]; try lia.
    eapply Move; [exact B|reflexivity].
Qed.

Lemma filter_sink_provider (pre : list Event) :
  forallb isProviderCall pre = true -> filter isSinkCall pre = [].
Proof.
  induction pre as [|e pre IH]; [reflexivity|]. cbn. intros H.
  apply andb_prop in H. destruct H as [He H]. destruct e; try discriminate.
  now apply IH.
Qed.

Lemma filter_sink_narrationCalls l i e synth lang :
  filter isSinkCall (narrationCalls l i e synth lang) = narrationCalls l i e synth lang.
Proof. unfold narrationCalls. now destruct (e && synth). Qed.


Lemma sinkCalls_step (op : Op) (w : World) :
  armed w -> activeInRange w -> settled w -> enabled w op = true ->
  exists l i e lang,
    sinkCalls (dispatch toLowerCase op w)
    = sinkCalls w ++ narrationCalls l i e (speechSynthesis w) lang.
Proof.
  intros A R S E.
  destruct (log_step op w A R S E) as (pre & l & i & e & lang & L & P & _).
  exists l, i, e, lang. unfold sinkCalls. rewrite L, !filter_app.
  now rewrite (filter_sink_provider pre P), filter_sink_narrationCalls.
Qed.


(** X2: when the browser has no [speechSynthesis], the page never calls the
    Narration Sink: in every state reached from such a start the list of
    sink calls is empty. *)
Theorem no_synthesis_no_calls (w : World) :
  reachable toLowerCase w -> speechSynthesis w = false -> sinkCalls w = [].
Proof.
  intros H.
  apply (reachable_preserve
           (fun w => settled w /\ (speechSynthesis w = false -> sinkCalls w = [])));
    [| |exact H].
  - intros synth. split; [apply initial_settled|reflexivity].
  - clear w H. intros w op A R [S C] E. split; [now apply step_settled|].
    rewrite (synth_step op w A E). intros F.
    destruct (sinkCalls_step op w A R S E) as (l & i & e & lang & ->).
    rewrite (C F), F. unfold narrationCalls. now rewrite Bool.andb_false_r.
Qed.

(** X3: the [loading] cell is false in every reachable state: [startShow]
    sets it and clears it within one handler, so no commit ever shows the
    loader overlay. *)
Theorem loading_is_never_observed (w : World) :
  reachable toLowerCase w -> loading w = false.
Proof.
  intros H.
  assert (S : settled w).
  { apply (reachable_preserve settled); [apply initial_settled| |exact H].
    intros v op A R S E. now apply step_settled. }
  unfold settled in S. destruct S as (L & _). exact L.
Qed.

Lemma populated_narration (s : Scene) : populated s = true -> narration s <> [].
Proof.
  unfold populated. intros H.
  repeat (apply andb_prop in H; destruct H as [H ?]).
  destruct (narration s); [discriminate|discriminate].
Qed.

(** X4: every text the page hands to [speechSynthesis.speak] is the
    narration of a populated scene, hence non-empty: the fallback to the
    empty string for a missing scene is never taken. *)
Theorem spoken_texts_are_narrations (w : World) (t : jsstring) (lang : Locale) :
  reachable toLowerCase w -> In (SynthSpeak t lang) (log w) ->
  exists s, populated s = true /\ t = narration s /\ t <> [].
Proof.
  intros H. revert t lang.
  apply (reachable_preserve
           (fun w => settled w /\ forall t lang, In (SynthSpeak t lang) (log w) ->
                       exists s, populated s = true /\ t = narration s /\ t <> []));
    [| |exact H].
  - intros synth. split; [apply initial_settled|]. intros t lang [].
  - clear w H. intros w op A R [S C] E. split; [now apply step_settled|].
    destruct (log_step op w A R S E) as (pre & l & i & e & lg & -> & P & V).
    intros t lang I. apply in_app_or in I. destruct I as [I|I]; [now apply (C t lang)|].
    apply in_app_or in I. destruct I as [I|I].
    + rewrite forallb_forall in P. specialize (P _ I). discriminate.
    + unfold narrationCalls in I. destruct e; [|destruct I].
      destruct (V eq_refl) as (s & Hs & Ps).
      destruct (speechSynthesis w); [|destruct I]. cbn in I.
      destruct I as [I|[I|[]]]; [discriminate|]. injection I. intros _ <-.
      unfold narrationAt. rewrite Hs. cbn. exists s.
      split; [exact Ps|]. split; [reflexivity|]. now apply populated_narration.
Qed.

(** X5: a reachable state is either idle (no scenes, not playing, index 0,
    nothing logged, no interval) or holds exactly the three populated
    scenes the local provider returns for some topic that is non-empty. *)
Theorem idle_or_a_provided_show (w : World) :
  reachable toLowerCase w ->
  (scenes w = [] /\ playing w = false /\ active w = Int 0 /\ log w = []
   /\ timers w = [])
  \/ (List.length (scenes w) = 3%nat
      /\ forallb populated (scenes w) = true
      /\ exists name, isEmpty name = false
           /\ scenes w = generateScenesLocally toLowerCase name).
Proof.
  intros H.
  assert (G : scenes w = []
              \/ exists name, isEmpty name = false
                   /\ scenes w = generateScenesLocally toLowerCase name).
  { apply (reachable_preserve
             (fun w => scenes w = []
                        \/ exists name, isEmpty name = false
                             /\ scenes w = generateScenesLocally toLowerCase name));
      [| |exact H].
    - intros synth. now left.
    - clear w H. intros w op A _ P E.
      destruct (scenes_step op w A E) as [->|N]; [exact P|now right]. }
  destruct (reachable_settled w H) as (_ & P & _ & Z0).
  destruct (reachable_invariant toLowerCase w H) as [A _].
  destruct G as [E|(name & N & E)].
  - left. destruct (Z0 E) as (Pl & Ac & Lg). repeat split; auto.
    destruct (armed_cases w A) as [(T & _)|(iv & _ & _ & _ & K & _)]; [exact T|].
    apply autoplayCondition_true in K. destruct K as (_ & _ & K).
    rewrite E in K. cbn in K. lia.
  - right. split; [|split; [exact P|eauto]].
    rewrite E. apply generateScenesLocally_length.
Qed.

(** X6: a show, once begun, is never taken down: from a reachable state
    with scenes, every continuation ends in a state with scenes, and the
    suggested-event buttons are never pressed again, as they are no longer
    rendered. *)
Theorem show_is_never_taken_down (w w' : World) (ops : list Op) :
  reachable toLowerCase w -> scenes w <> [] -> steps toLowerCase w ops w' ->
  scenes w' <> [] /\ forall k, ~ In (ClickSuggestion k) ops.
Proof.
  intros H N S. destruct (reachable_invariant toLowerCase w H) as [A _]. clear H.
  induction S as [w|w op ops w' E _ IH]; [split; [exact N|intros k []]|].
  assert (N' : scenes (dispatch toLowerCase op w) <> []).
  { destruct (scenes_step op w A E) as [->|(name & _ & ->)]; [exact N|].
    pose proof (generateScenesLocally_length toLowerCase name) as L.
    intros Z0. rewrite Z0 in L. discriminate. }
  destruct (IH N' (step_armed toLowerCase op w A E)) as [F G].
  split; [exact F|]. intros k [->|I]; [|exact (G k I)].
  cbn in E. apply Z.eqb_eq in E. destruct (scenes w); [now apply N|discriminate].
Qed.

End Reachable.

(** ** Strings *)

Lemma JsString_eqb_eq (a b : jsstring) : JsString.eqb a b = true <-> a = b.
Proof.
  revert b. induction a as [|x a IH]; intros [|y b]; cbn; split; intros H;
    try reflexivity; try discriminate.
  - apply andb_prop in H. destruct H as [Hx Ha].
    apply N.eqb_eq in Hx. apply IH in Ha. now subst.
  - injection H. intros -> ->. rewrite N.eqb_refl. now apply IH.
Qed.

Lemma member_In (s : jsstring) (l : list jsstring) : member s l = true <-> In s l.
Proof.
  unfold member. rewrite existsb_exists. split.
  - intros (x & I & E). apply JsString_eqb_eq in E. now subst.
  - intros I. exists s. split; [exact I|]. now apply JsString_eqb_eq.
Qed.

(** ** The stage *)

Section StageFacts.

Import Stage.

Lemma groundOf_own_iff (env : jsstring) :
  knownEnvironment env = true <-> exists g, groundOf env = Own g.
Proof.
  split.
  - intros K. apply member_In in K. unfold envNames in K. cbn [List.map In] in K.
    repeat (destruct K as [<-|K]; [eexists; reflexivity|]). destruct K.
  - intros (g & G). unfold groundOf in G.
    destruct (find (fun p => JsString.eqb (fst p) env) base) as [p|] eqn:F.
    + apply find_some in F. destruct F as [I E]. apply JsString_eqb_eq in E. subst env.
      unfold base in I. cbn [List.map In] in I.
      repeat (destruct I as [<-|I]; [reflexivity|]). destruct I.
    + destruct (member env inherited); discriminate.
Qed.



End StageFacts.

Section StageOfTheShow.

Import Stage.

Variable toLowerCase : jsstring -> jsstring.

Lemma populated_known (s : Scene) :
  populated s = true ->
  knownEnvironment (environment s) = true /\ knownCameraStyle (cameraStyle s) = true.
Proof.
  unfold populated. intros H.
  repeat (apply andb_prop in H; destruct H as [H ?]). now split.
Qed.

Lemma diorama_flag (s : Scene) (els : list Element) :
  Diorama s = Some els ->
  (In Flag els <-> arrayIncludes (visualKeywords s) (lit "flag") = true).
Proof.
  unfold Diorama, when.
  destruct (groundOf (environment s)); try discriminate;
    intros E; injection E; intros <-; clear E;
    destruct (JsString.eqb (environment s) (lit "space")),
             (JsString.eqb (environment s) (lit "sea")),
             (arrayIncludes (visualKeywords s) (lit "pyramid")),
             (arrayIncludes (visualKeywords s) (lit "flag")),
             (arrayIncludes (visualKeywords s) (lit "footprints")); cbn;
    split; intros H; try reflexivity; try discriminate; auto 10;
    repeat (destruct H as [H|H]; [discriminate|]); destruct H.
Qed.

Lemma provider_has_no_flag_keyword (name : jsstring) :
  forallb (fun s => negb (arrayIncludes (visualKeywords s) (lit "flag")))
    (generateScenesLocally toLowerCase name) = true.
Proof.
  destruct (generateScenesLocally_cases toLowerCase name) as [E|[E|[E|E]]];
    rewrite E; vm_compute; reflexivity.
Qed.

(** X8: for every topic, every scene the local provider returns is
    rendered by [Diorama] without an exception, and none of them shows the
    flag prop: the test is for the keyword ["flag"] itself, which no scene
    lists (the scenes list ["American flag"] and ["flags"]). *)
Theorem provider_scenes_render_without_flag (name : jsstring) (s : Scene) :
  In s (generateScenesLocally toLowerCase name) ->
  exists els, Diorama s = Some els /\ ~ In Flag els.
Proof.
  intros I.
  pose proof (generateScenesLocally_populated toLowerCase name) as P.
  rewrite forallb_forall in P. specialize (P s I).
  destruct (populated_known s P) as [K _].
  apply groundOf_own_iff in K. destruct K as (g & G).
  pose proof (provider_has_no_flag_keyword name) as F.
  rewrite forallb_forall in F. specialize (F s I). apply negb_true_iff in F.
  destruct (Diorama s) as [els|] eqn:D.
  - exists els. split; [reflexivity|]. rewrite (diorama_flag s els D). congruence.
  - unfold Diorama in D. rewrite G in D. discriminate.
Qed.


End StageOfTheShow.

(** ** More on navigation and the interval *)

(** X10: with a valid index, next followed by previous, and previous
    followed by next, come back to the index they started from, leave the
    sequence alone, and each of the two presses sends its own activation to
    the Narration Sink. *)
Theorem next_previous_round_trip (w : World) (a : Z) :
  active w = Int a -> 0 <= a < len (scenes w) ->
  active (onPrevious (onNext w)) = Int a
  /\ active (onNext (onPrevious w)) = Int a
  /\ scenes (onPrevious (onNext w)) = scenes w
  /\ log (onPrevious (onNext w))
     = log w
       ++ narrationCalls (scenes w) (Int ((a + 1) mod len (scenes w)))
            (narrationEnabled w) (speechSynthesis w) (locale w)
       ++ narrationCalls (scenes w) (Int a)
            (narrationEnabled w) (speechSynthesis w) (locale w).
Proof.
  intros A R. set (n := len (scenes w)) in *.
  assert (B1 : 0 <= (a + 1) mod n < n) by (apply Z.mod_pos_bound; lia).
  assert (B2 : 0 <= (a - 1 + n) mod n < n) by (apply Z.mod_pos_bound; lia).
  assert (E1 : ((a + 1) mod n - 1 + n) mod n = a).
  { replace ((a + 1) mod n - 1 + n) with ((a + 1) mod n + (n - 1)) by lia.
    rewrite Z.add_mod_idemp_l by lia.
    replace (a + 1 + (n - 1)) with (a + 1 * n) by lia.
    rewrite Z.mod_add by lia. apply Z.mod_small. lia. }
  assert (E2 : ((a - 1 + n) mod n + 1) mod n = a).
  { rewrite Z.add_mod_idemp_l by lia.
    replace (a - 1 + n + 1) with (a + 1 * n) by lia.
    rewrite Z.mod_add by lia. apply Z.mod_small. lia. }
  rewrite (onPrevious_eq (onNext w)), (onNext_eq (onPrevious w)).
  rewrite onNext_eq, onPrevious_eq. cbn. fold n. rewrite A.
  destruct (jsRem_next a n) as [-> _]; try lia.
  destruct (jsRem_previous a n) as [-> _]; try lia.
  destruct (jsRem_previous ((a + 1) mod n) n) as [-> _]; try lia.
  destruct (jsRem_next ((a - 1 + n) mod n) n) as [-> _]; try lia.
  rewrite E1, E2, <- app_assoc. repeat split.
Qed.

Lemma next_previous_round_trip_witness :
  active moonShow = Int 0 /\ 0 <= 0 < len (scenes moonShow)
  /\ active (onPrevious (onNext moonShow)) = Int 0.
Proof.
  split; [reflexivity|]. split; [vm_compute; split; [discriminate|reflexivity]|].
  refine (proj1 (next_previous_round_trip moonShow 0 eq_refl _)).
  vm_compute; split; [discriminate|reflexivity].
Defined.

Section Countdown.

Variable toLowerCase : jsstring -> jsstring.

Lemma enabled_fire (w : World) (iv : Interval) :
  armed w -> timers w = [iv] -> enabled w (TimerFires (handle iv)) = true.
Proof.
  intros A T. unfold armed in A. rewrite T in A.
  destruct A as (_ & _ & _ & _ & _ & _ & D).
  unfold enabled, findInterval. rewrite T. cbn. rewrite Nat.eqb_refl. lia.
Qed.

Lemma firings (n : nat) :
  forall (w : World) (iv : Interval) (a : Z),
  armed w -> activeInRange w -> timers w = [iv] -> active w = Int a -> 0 <= a ->
  let ops := repeat (TimerFires (handle iv)) n in
  let w' := run toLowerCase ops w in
  steps toLowerCase w ops w'
  /\ List.map deadline (timers w') = [deadline iv + 6800 * Z.of_nat n]
  /\ active w' = Int ((a + Z.of_nat n) mod len (scenes w))
  /\ scenes w' = scenes w
  /\ ((0 < n)%nat -> now w' = deadline iv + 6800 * (Z.of_nat n - 1)).
Proof.
  induction n as [|n IH]; intros w iv a A R T Ac Ha; cbv zeta.
  - cbn [repeat run fold_left]. rewrite T. cbn.
    split; [constructor|]. split; [f_equal; lia|].
    destruct (armed_cases w A) as [(T0 & _)|(iv' & _ & _ & _ & K & _)]; [congruence|].
    destruct (autoplayCondition_true w K) as (_ & _ & Ln).
    destruct (R Ln) as (a' & Ha' & Hr). assert (a' = a) by congruence. subst a'.
    rewrite Ac, Z.add_0_r, Z.mod_small by lia. repeat split. lia.
  - pose proof (enabled_fire w iv A T) as E.
    destruct (armed_cases w A) as [(T0 & _)|(iv' & T' & _ & P & K & S & _)];
      [congruence|].
    assert (iv' = iv) by congruence. subst iv'.
    destruct (autoplayCondition_true w K) as (_ & _ & Ln).
    set (w1 := dispatch toLowerCase (TimerFires (handle iv)) w).
    assert (A1 : armed w1) by (now apply step_armed).
    assert (R1 : activeInRange w1) by (now apply step_activeInRange).
    assert (F : w1 = fire (handle iv) w) by (now apply dispatch_fire with iv).
    rewrite (fire_single (handle iv) iv w T eq_refl) in F.
    destruct (jsRem_next a (len (scenes w))) as [J B]; try lia.
    set (iv1 := mkInterval (handle iv) (deadline iv + period iv) (period iv)
                  (cap_scenes iv) (cap_narration iv) (cap_locale iv)).
    assert (T1 : timers w1 = [iv1]) by (rewrite F; reflexivity).
    assert (Ac1 : active w1 = Int ((a + 1) mod len (scenes w))).
    { rewrite F. cbn. now rewrite S, Ac, J. }
    assert (S1 : scenes w1 = scenes w) by (rewrite F; reflexivity).
    assert (N1 : now w1 = deadline iv) by (rewrite F; reflexivity).
    destruct (IH w1 iv1 ((a + 1) mod len (scenes w)) A1 R1 T1 Ac1 (proj1 B))
      as (St & D & Av & Sv & Nv).
    cbn [repeat run fold_left]. fold w1.
    change (fold_left (fun w op => dispatch toLowerCase op w)
              (repeat (TimerFires (handle iv)) n) w1)
      with (run toLowerCase (repeat (TimerFires (handle iv1)) n) w1).
    split; [eapply steps_cons; [exact E|exact St]|].
    split; [rewrite D; unfold iv1; cbn [deadline]; rewrite P; unfold autoplayPeriod;
            f_equal; lia|].
    split.
    { rewrite Av, S1. f_equal. rewrite Z.add_mod_idemp_l by lia. f_equal. lia. }
    split; [congruence|].
    intros _. destruct n as [|n].
    + cbn [repeat run fold_left]. rewrite N1. lia.
    + rewrite Nv by lia. unfold iv1. cbn [deadline]. rewrite P.
      unfold autoplayPeriod. lia.
Qed.

(** X11: from a reachable state with a live interval, [n] firings in a row
    are possible; the last of them happens at the first deadline plus
    [6800 (n - 1)], the next one is due at the first deadline plus [6800 n],
    the sequence is untouched and the index has advanced by [n] modulo the
    number of scenes, so as many firings as there are scenes bring the show
    back to the scene it was on. *)
Theorem autoplay_firings (w : World) (iv : Interval) (a : Z) (n : nat) :
  reachable toLowerCase w -> timers w = [iv] -> active w = Int a ->
  let ops := repeat (TimerFires (handle iv)) n in
  let w' := run toLowerCase ops w in
  steps toLowerCase w ops w'
  /\ List.map deadline (timers w') = [deadline iv + 6800 * Z.of_nat n]
  /\ active w' = Int ((a + Z.of_nat n) mod len (scenes w))
  /\ scenes w' = scenes w
  /\ ((0 < n)%nat -> now w' = deadline iv + 6800 * (Z.of_nat n - 1))
  /\ (Z.of_nat n = len (scenes w) -> active w' = active w).
Proof.
  intros H T Ac. destruct (reachable_invariant toLowerCase w H) as [A R].
  destruct (armed_cases w A) as [(T0 & _)|(iv' & _ & _ & _ & K & _)]; [congruence|].
  destruct (autoplayCondition_true w K) as (_ & _ & Ln).
  destruct (R Ln) as (a' & Ha' & Hr). assert (a' = a) by congruence. subst a'.
  destruct (firings n w iv a A R T Ac (proj1 Hr)) as (St & D & Av & Sv & Nv).
  cbv zeta. repeat split; auto.
  intros E. rewrite Av, Ac, E. f_equal.
  replace (a + len (scenes w)) with (a + 1 * len (scenes w)) by lia.
  rewrite Z.mod_add by lia. apply Z.mod_small. lia.
Qed.

End Countdown.

Section Rearm.

Variable toLowerCase : jsstring -> jsstring.

Lemma rearm_fresh (v : World) :
  (timers v = [] /\ effectCleanup v = None)
  \/ (exists iv, timers v = [iv] /\ effectCleanup v = Some (handle iv)) ->
  timers (autoplayEffect (runCleanup v))
  = if autoplayCondition v
    then [mkInterval (nextHandle v) (now v + autoplayPeriod) autoplayPeriod
            (scenes v) (narrationEnabled v) (locale v)]
    else [].
Proof.
  intros H.
  assert (T : runCleanup v = withTimers [] v).
  { unfold runCleanup, clearInterval.
    destruct H as [[T C]|[iv [T C]]]; rewrite C, ?T.
    - destruct v; cbn in *. now subst.
    - cbn. now rewrite Nat.eqb_refl. }
  rewrite T. unfold autoplayEffect, autoplayCondition, setInterval. cbn.
  destruct (playing v), (autoplay v); cbn; try reflexivity.
  destruct (len (scenes v) =? 0); reflexivity.
Qed.

Lemma dispatch_restarts (op : Op) (w : World) :
  armed w -> isClock op = false ->
  depsChanged w (handler toLowerCase op w) = true ->
  autoplayCondition (handler toLowerCase op w) = true ->
  List.map deadline (timers (dispatch toLowerCase op w)) = [now w + 6800].
Proof.
  intros A K D C. unfold dispatch, render. rewrite D.
  destruct (handler_frame toLowerCase op w K) as (T & Cl & N & _).
  rewrite rearm_fresh, C by (rewrite T, Cl; now apply armed_shape).
  cbn. now rewrite N.
Qed.

Lemma dispatch_keeps (op : Op) (w : World) :
  depsChanged w (handler toLowerCase op w) = false ->
  dispatch toLowerCase op w = handler toLowerCase op w.
Proof. intros D. unfold dispatch, render. now rewrite D. Qed.

(** X12: pressing next or previous, moving the seek or the quality slider
    and typing a topic leave the live interval and the clock exactly as
    they are, so a manual move does not postpone the coming automatic
    advance; and the seek slider, the quality slider, play/pause, the two
    checkboxes, the language select, typing and the passing of time make
    no call to anything: the log stays as it is. *)
Theorem navigation_keeps_the_countdown (w : World) (op : Op) :
  (keepsInterval op = true ->
     timers (dispatch toLowerCase op w) = timers w
     /\ now (dispatch toLowerCase op w) = now w)
  /\ (neverSpeaks op = true -> log (dispatch toLowerCase op w) = log w).
Proof.
  split.
  - intros K. destruct op; try discriminate; rewrite dispatch_keeps; cbn [handler];
      rewrite ?onNext_eq, ?onPrevious_eq;
      try (apply depsChanged_same; reflexivity); split; reflexivity.
  - intros K.
    destruct (dispatch_cells toLowerCase op w) as (_ & _ & _ & _ & -> & _).
    destruct op; try discriminate; reflexivity.
Qed.

Lemma locale_neq (a b : Locale) : a <> b -> Locale_eqb b a = false.
Proof. destruct a, b; intros H; try reflexivity; now elim H. Qed.

(** X13: while a show plays with autoplay on, changing the language or
    toggling narration replaces the interval by one due a full 6800 after
    the change; so does beginning a show on a non-blank topic with autoplay
    on, and resuming from pause.  Pausing removes the interval. *)
Theorem countdown_restarts (w : World) :
  reachable toLowerCase w -> autoplay w = true ->
  (playing w = true -> scenes w <> [] ->
     (forall l, l <> locale w ->
        List.map deadline (timers (dispatch toLowerCase (SelectLocale l) w))
        = [now w + 6800])
     /\ (forall b, b <> narrationEnabled w ->
           List.map deadline (timers (dispatch toLowerCase (CheckNarration b) w))
           = [now w + 6800])
     /\ timers (dispatch toLowerCase ClickPlayPause w) = [])
  /\ (isEmpty (topicOf None w) = false ->
      List.map deadline (timers (dispatch toLowerCase ClickBegin w)) = [now w + 6800])
  /\ (playing w = false -> scenes w <> [] ->
      List.map deadline (timers (dispatch toLowerCase ClickPlayPause w))
      = [now w + 6800]).
Proof.
  intros H U. destruct (reachable_invariant toLowerCase w H) as [A _].
  assert (L : scenes w <> [] -> (len (scenes w) =? 0) = false).
  { intros N. apply Z.eqb_neq. unfold len. destruct (scenes w); [contradiction|].
    cbn. lia. }
  split; [|split].
  - intros P N. split; [|split].
    + intros l Hl. apply dispatch_restarts; auto; cbn [handler].
      * unfold depsChanged. cbn. rewrite (locale_neq _ _ Hl).
        now rewrite !Bool.andb_false_r.
      * unfold autoplayCondition. cbn. now rewrite P, U, (L N).
    + intros b Hb. apply dispatch_restarts; auto; cbn [handler].
      * unfold depsChanged. cbn.
        destruct b, (narrationEnabled w); try (now elim Hb); cbn;
          now rewrite !Bool.andb_false_r.
      * unfold autoplayCondition. cbn. now rewrite P, U, (L N).
    + assert (A' : armed (dispatch toLowerCase ClickPlayPause w)).
      { apply dispatch_armed; [reflexivity|exact A]. }
      destruct (armed_cases _ A') as [(T & _)|(iv & _ & _ & _ & K & _)]; [exact T|].
      apply autoplayCondition_true in K. destruct K as (K & _).
      destruct (dispatch_flags toLowerCase ClickPlayPause w) as (_ & _ & F).
      rewrite F in K. cbn in K. rewrite P in K. discriminate.
  - intros B. apply dispatch_restarts; auto; cbn [handler].
    + rewrite (startShow_returned toLowerCase None w B). unfold depsChanged. cbn.
      rewrite (proj2 (Nat.eqb_neq _ _)) by lia.
      now rewrite !Bool.andb_false_r.
    + rewrite (startShow_returned toLowerCase None w B).
      unfold autoplayCondition. cbn. rewrite U, len_generateScenesLocally. reflexivity.
  - intros P N. apply dispatch_restarts; auto; cbn [handler].
    + unfold depsChanged, onPlayPause. cbn. now rewrite P.
    + unfold autoplayCondition, onPlayPause. cbn. now rewrite P, U, (L N).
Qed.

End Rearm.

Lemma navigation_keeps_the_countdown_witness :
  timers (dispatch asciiLower (SlideSeek 2) moonShow) = timers moonShow.
Proof.
  exact (proj1 (proj1 (navigation_keeps_the_countdown asciiLower moonShow (SlideSeek 2))
                  eq_refl)).
Defined.

(** ** The camera over many frames *)

Section CameraMotion.

Import Camera Frames.
Local Open Scope R_scope.

Lemma runFrames_cons mode f frames cam :
  runFrames mode (f :: frames) cam
  = runFrames mode frames (CameraRig mode (fst f) (snd f) cam).
Proof. reflexivity. Qed.

Lemma locked_off_step (t : R) (rnd : Random3) (cam : Camera) :
  CameraRig (lit "locked-off") t rnd cam
  = lookAt 0 1 0 (mkCamera (lerp (position cam) (vec3 0 1.6 6) (0.5 * 0.05))
                    (rotation cam)).
Proof. reflexivity. Qed.

(** X14: in the locked-off style the camera closes in on [(0, 1.6, 6)]
    geometrically: after [n] frames each coordinate's distance to the
    target is [0.975 ^ n] times what it was, whatever the frame times and
    random draws; so it never overshoots and never leaves the segment
    between its start and the target.  After the first frame it looks at
    [(0, 1, 0)] from where it stands. *)
Theorem locked_off_converges (frames : list (R * Random3)) (cam : Camera) :
  let cam' := runFrames (lit "locked-off") frames cam in
  let k := 0.975 ^ List.length frames in
  vx (position cam') = k * vx (position cam)
  /\ vy (position cam') - 1.6 = k * (vy (position cam) - 1.6)
  /\ vz (position cam') - 6 = k * (vz (position cam) - 6)
  /\ 0 < k <= 1
  /\ (frames <> [] -> rotation cam' = LookAt (position cam') (vec3 0 1 0)).
Proof.
  cbv zeta. revert cam.
  induction frames as [|f frames IH]; intros cam.
  - cbn. repeat split; try lra. intros H. now elim H.
  - rewrite runFrames_cons, locked_off_step.
    destruct (IH (lookAt 0 1 0
                    (mkCamera (lerp (position cam) (vec3 0 1.6 6) (0.5 * 0.05))
                       (rotation cam)))) as (X & Y & Z & K & L).
    cbn [List.length pow]. cbn [position lookAt lerp vx vy vz] in X, Y, Z.
    clear IH. set (k := 0.975 ^ List.length frames) in *. clearbody k.
    split; [rewrite X; lra|]. split; [rewrite Y; lra|]. split; [rewrite Z; lra|].
    split; [nra|].
    intros _. destruct frames as [|g frames]; [reflexivity|].
    apply L. discriminate.
Qed.

Lemma locked_off_converges_witness :
  rotation (runFrames (lit "locked-off") [(0, rnd3 0 0 0)] initialCamera)
  = LookAt (position (runFrames (lit "locked-off") [(0, rnd3 0 0 0)] initialCamera))
      (vec3 0 1 0).
Proof.
  refine (proj2 (proj2 (proj2 (proj2
           (locked_off_converges [(0, rnd3 0 0 0)] initialCamera)))) _).
  discriminate.
Defined.

(** X15: in the default branch (orbit-slow, push-pull and every unnamed
    style) the camera is put on the circle of radius 6 around the vertical
    axis at height 2, whatever its previous position, and looks at
    [(0, 1.2, 0)]. *)
Theorem orbit_stays_on_its_circle (mode : jsstring) (t : R) (rnd : Random3) (cam : Camera) :
  hasOwnBranch mode = false ->
  let p := position (CameraRig mode t rnd cam) in
  vx p * vx p + vz p * vz p = 36
  /\ vy p = 2
  /\ rotation (CameraRig mode t rnd cam) = LookAt p (vec3 0 1.2 0)
  /\ forall rnd' cam', CameraRig mode t rnd' cam' = CameraRig mode t rnd cam.
Proof.
  intros H. cbv zeta. rewrite default_branch by assumption. cbn.
  split; [|split; [reflexivity|split; [reflexivity|]]].
  - pose proof (sin2_cos2 (t * 0.1)) as S. unfold Rsqr in S. nra.
  - intros rnd' cam'. now rewrite default_branch by assumption.
Qed.

Lemma orbit_stays_on_its_circle_witness :
  vy (position (CameraRig (lit "orbit-slow") 0 (rnd3 0 0 0) initialCamera)) = 2.
Proof.
  exact (proj1 (proj2 (orbit_stays_on_its_circle (lit "orbit-slow") 0 (rnd3 0 0 0)
                         initialCamera eq_refl))).
Defined.






Lemma handheld_step (t : R) (rnd : Random3) (cam : Camera) :
  CameraRig (lit "handheld") t rnd cam
  = mkCamera (vec3 (vx (position cam) + (r1 rnd - 0.5) * 0.01)
                   (vy (position cam) + (r2 rnd - 0.5) * 0.01)
                   (vz (position cam)))
      (RollZ (rotation cam) ((r3 rnd - 0.5) * 0.002)).
Proof. reflexivity. Qed.

(** X18: a handheld frame, with random draws in [[0, 1)], moves the camera
    by at most 0.005 in [x] and in [y] and never in depth; so after [n]
    frames the camera has drifted at most [0.005 n] in [x] and in [y] and
    stands at the depth it started from. *)
Theorem handheld_drift_is_bounded (frames : list (R * Random3)) (cam : Camera) :
  Forall (fun f => inUnit (snd f)) frames ->
  let cam' := runFrames (lit "handheld") frames cam in
  let d := 0.005 * INR (List.length frames) in
  vx (position cam) - d <= vx (position cam') <= vx (position cam) + d
  /\ vy (position cam) - d <= vy (position cam') <= vy (position cam) + d
  /\ vz (position cam') = vz (position cam).
Proof.
  cbv zeta. intros F. revert cam.
  induction F as [|f frames U _ IH]; intros cam.
  - cbn. repeat split; lra.
  - rewrite runFrames_cons, handheld_step.
    destruct (IH (mkCamera (vec3 (vx (position cam) + (r1 (snd f) - 0.5) * 0.01)
                                 (vy (position cam) + (r2 (snd f) - 0.5) * 0.01)
                                 (vz (position cam)))
                    (RollZ (rotation cam) ((r3 (snd f) - 0.5) * 0.002))))
      as (X & Y & Z).
    cbn [position vx vy vz] in X, Y, Z. cbn [List.length]. rewrite S_INR.
    destruct U as (U1 & U2 & _).
    repeat split; try lra; exact Z.
Qed.

Lemma handheld_drift_is_bounded_witness :
  vz (position (runFrames (lit "handheld") [(0, rnd3 0 0.5 0.25)] initialCamera))
  = vz (position initialCamera).
Proof.
  refine (proj2 (proj2 (handheld_drift_is_bounded [(0, rnd3 0 0.5 0.25)]
                          initialCamera _))).
  repeat constructor; cbn; lra.
Defined.

(** X19: the flag's clock adds up the frame durations, and after any frame
    the cloth is within 0.1 of the pole in [x]: the offset of 0.6 at which
    the cloth is mounted does not survive the first frame. *)
Theorem flag_cloth_stays_at_the_pole (poleX : R) (dts : list R) (f : FlagRefs) :
  let f' := fold_left (fun f dt => flagFrame poleX dt f) dts f in
  flagT f' = flagT f + fold_right Rplus 0 dts
  /\ (dts <> [] -> poleX - 0.1 <= clothX f' <= poleX + 0.1)
  /\ clothX (flagMount poleX) = poleX + 0.6.
Proof.
  cbv zeta. split; [|split; [|reflexivity]].
  - revert f. induction dts as [|dt dts IH]; intros f; cbn; [lra|].
    rewrite IH. cbn. lra.
  - revert f. induction dts as [|dt dts IH]; intros f N; [now elim N|].
    cbn [fold_left]. destruct dts as [|dt' dts].
    + cbn. pose proof (SIN_bound ((flagT f + dt) * 2)). lra.
    + apply IH. discriminate.
Qed.

Lemma flag_cloth_stays_at_the_pole_witness :
  1.5 - 0.1 <= clothX (fold_left (fun f dt => flagFrame 1.5 dt f) [0.016]
                         (flagMount 1.5)) <= 1.5 + 0.1.
Proof.
  refine (proj1 (proj2 (flag_cloth_stays_at_the_pole 1.5 [0.016] (flagMount 1.5))) _).
  discriminate.
Defined.

End CameraMotion.

(** ** Trimming and the blank-topic guard *)

Lemma trimStart_split (s : jsstring) :
  exists ws, s = ws ++ trimStart s /\ forallb isWhiteSpace ws = true.
Proof.
  induction s as [|c s (ws & E & W)]; [exists []; now split|].
  cbn. destruct (isWhiteSpace c) eqn:C.
  - exists (c :: ws). cbn. rewrite C, W. split; [now f_equal|reflexivity].
  - exists []. now split.
Qed.

Lemma trimStart_head (s : jsstring) (c : N) (r : jsstring) :
  trimStart s = c :: r -> isWhiteSpace c = false.
Proof.
  induction s as [|d s IH]; [discriminate|]. cbn.
  destruct (isWhiteSpace d) eqn:D; [exact IH|]. intros E. injection E. now intros _ <-.
Qed.

Lemma trimStart_fixed (s : jsstring) :
  match s with [] => True | c :: _ => isWhiteSpace c = false end -> trimStart s = s.
Proof. destruct s as [|c s]; [reflexivity|]. cbn. now intros ->. Qed.

Lemma trimStart_nil_iff (s : jsstring) :
  trimStart s = [] <-> forallb isWhiteSpace s = true.
Proof.
  induction s as [|c s IH]; [now split|]. cbn.
  destruct (isWhiteSpace c); cbn; [exact IH|]. split; discriminate.
Qed.

Lemma forallb_rev (f : N -> bool) (l : list N) : forallb f (rev l) = forallb f l.
Proof.
  induction l as [|x l IH]; [reflexivity|]. cbn.
  rewrite forallb_app, IH. cbn. rewrite Bool.andb_true_r. apply Bool.andb_comm.
Qed.

Lemma trim_nil_iff (s : jsstring) : trim s = [] <-> forallb isWhiteSpace s = true.
Proof.
  unfold trim, trimEnd. split.
  - intros H. apply (f_equal (@rev N)) in H. rewrite rev_involutive in H. cbn in H.
    apply trimStart_nil_iff in H. rewrite forallb_rev in H.
    destruct (trimStart s) as [|c r] eqn:E; [now apply trimStart_nil_iff|].
    apply trimStart_head in E. cbn in H. rewrite E in H. discriminate.
  - intros H. apply trimStart_nil_iff in H. now rewrite H.
Qed.

Lemma trim_idempotent (s : jsstring) : trim (trim s) = trim s.
Proof.
  unfold trim, trimEnd.
  remember (trimStart s) as u eqn:Hu. remember (trimStart (rev u)) as v eqn:Hv0.
  assert (Hv : trimStart v = v).
  { apply trimStart_fixed. destruct v as [|c r]; [exact I|].
    apply trimStart_head with (rev u) r. now symmetry. }
  assert (Hr : trimStart (rev v) = rev v).
  { apply trimStart_fixed. destruct (rev v) as [|c r] eqn:E; [exact I|].
    destruct (trimStart_split (rev u)) as (ws & Eu & W). rewrite <- Hv0 in Eu.
    apply (f_equal (@rev N)) in Eu. rewrite rev_involutive, rev_app_distr, E in Eu.
    destruct u as [|d u']; [discriminate|].
    cbn in Eu. injection Eu. intros _ ->.
    apply trimStart_head with s u'. now symmetry. }
  now rewrite Hr, rev_involutive, Hv.
Qed.

Section BlankGuard.

Variable toLowerCase : jsstring -> jsstring.

(** X20: [startShow] leaves the world as it is exactly when every code
    unit of the topic is white space (the empty topic included); otherwise
    the world changes.  The topic it hands to the provider is already
    trimmed, so the provider's own trim changes nothing. *)
Theorem startShow_noop_iff_blank (evtName : option jsstring) (w : World) :
  (startShow toLowerCase evtName w = w
   <-> forallb isWhiteSpace (rawTopic evtName w) = true)
  /\ trim (topicOf evtName w) = topicOf evtName w.
Proof.
  split; [|apply trim_idempotent].
  rewrite <- trim_nil_iff. change (trim (rawTopic evtName w)) with (topicOf evtName w).
  split.
  - intros H. destruct (startShow_cases toLowerCase evtName w) as [[E _]|[E R]].
    + destruct (topicOf evtName w); [reflexivity|discriminate].
    + rewrite R in H. apply (f_equal scenesId) in H. cbn in H. lia.
  - intros E. apply startShowWith_empty. now rewrite E.
Qed.

End BlankGuard.

(** ** Which scenes a topic gets *)

Lemma startsWith_spec (s sub : jsstring) :
  startsWith s sub = true <-> exists post, s = sub ++ post.
Proof.
  revert s. induction sub as [|y sub IH]; intros s.
  - destruct s; cbn; split; eauto.
  - destruct s as [|x s]; cbn.
    + split; [discriminate|]. intros (post & E). discriminate.
    + split.
      * intros H. apply andb_prop in H. destruct H as [Hx Hs].
        apply N.eqb_eq in Hx. apply IH in Hs. destruct Hs as (post & ->).
        exists post. now subst.
      * intros (post & E). injection E. intros -> ->.
        rewrite N.eqb_refl. apply IH. eauto.
Qed.

Lemma includes_spec (s sub : jsstring) : includes s sub = true <-> occurs sub s.
Proof.
  unfold occurs. induction s as [|c s IH].
  - cbn [includes]. rewrite Bool.orb_false_r, startsWith_spec. split.
    + intros (post & E). exists [], post. exact E.
    + intros (pre & post & E). destruct pre; [eauto|discriminate].
  - cbn [includes]. rewrite Bool.orb_true_iff, startsWith_spec, IH. split.
    + intros [(post & E)|(pre & post & E)].
      * exists [], post. exact E.
      * exists (c :: pre), post. cbn. now f_equal.
    + intros (pre & post & E). destruct pre as [|d pre].
      * left. exists post. exact E.
      * right. injection E. intros -> _. eauto.
Qed.

Lemma includes_false (s sub : jsstring) : includes s sub = false <-> ~ occurs sub s.
Proof.
  rewrite <- includes_spec. destruct (includes s sub); split; intros H;
    try reflexivity; try discriminate.
  now elim H.
Qed.

Section Branches.

Variable toLowerCase : jsstring -> jsstring.

(** X21: which branch the local provider takes is decided by which
    keywords occur, as contiguous blocks, in the trimmed and lower-cased
    topic, in this order of priority: "moon" or "apollo" give the lunar
    scenes even if other keywords occur too; otherwise "egypt" the
    Egyptian ones; otherwise "world war", "wwii" or "ww2" the war scenes;
    and a topic with none of the six gets the fallback scenes. *)
Theorem provider_branch_by_keyword (name : jsstring) :
  let e := toLowerCase (trim name) in
  let has kw := occurs (lit kw) e in
  (has "moon"%string \/ has "apollo"%string ->
     generateScenesLocally toLowerCase name = moonScenes)
  /\ (~ has "moon"%string -> ~ has "apollo"%string -> has "egypt"%string ->
      generateScenesLocally toLowerCase name = egyptScenes)
  /\ (~ has "moon"%string -> ~ has "apollo"%string -> ~ has "egypt"%string ->
      has "world war"%string \/ has "wwii"%string \/ has "ww2"%string ->
      generateScenesLocally toLowerCase name = warScenes)
  /\ (~ has "moon"%string -> ~ has "apollo"%string -> ~ has "egypt"%string ->
      ~ has "world war"%string -> ~ has "wwii"%string -> ~ has "ww2"%string ->
      generateScenesLocally toLowerCase name = genericScenes name).
Proof.
  cbv zeta. unfold generateScenesLocally.
  repeat split.
  - intros [H|H]; apply includes_spec in H; rewrite H; [reflexivity|].
    now rewrite Bool.orb_true_r.
  - intros M A E. apply includes_false in M, A. apply includes_spec in E.
    now rewrite M, A, E.
  - intros M A E W. apply includes_false in M, A, E. rewrite M, A, E. cbn [orb].
    destruct W as [W|[W|W]]; apply includes_spec in W; rewrite W;
      rewrite ?Bool.orb_true_r; reflexivity.
  - intros M A E W1 W2 W3. apply includes_false in M, A, E, W1, W2, W3.
    now rewrite M, A, E, W1, W2, W3.
Qed.

(** X22: with a [toLowerCase] that lower-cases ASCII strings as expected,
    the suggested-event buttons store their label as the event name and,
    in English, start the lunar, Egyptian and war scenes; in Spanish each
    of the three labels contains none of the keywords and starts the
    fallback scenes titled after the label. *)
Theorem suggestions_by_language (w : World) (k : Suggestion) :
  (forall s, isAscii s = true -> toLowerCase s = asciiLower s) ->
  eventName (dispatch toLowerCase (ClickSuggestion k) w) = suggestionLabel (locale w) k
  /\ scenes (dispatch toLowerCase (ClickSuggestion k) w)
     = match locale w, k with
       | EnUS, MoonLanding => moonScenes
       | EnUS, AncientEgypt => egyptScenes
       | EnUS, WorldWarII => warScenes
       | EsES, _ => genericScenes (suggestionLabel EsES k)
       end.
Proof.
  intros L.
  destruct (dispatch_cells toLowerCase (ClickSuggestion k) w)
    as (_ & -> & _ & _ & _ & _ & _ & _ & ->).
  cbn [handler].
  assert (B : isEmpty (topicOf (Some (suggestionLabel (locale w) k))
                         (setEventName (suggestionLabel (locale w) k) w)) = false)
    by (destruct (locale w), k; reflexivity).
  rewrite (startShow_returned toLowerCase _ _ B). cbn [eventName scenes setEventName].
  split; [reflexivity|].
  unfold generateScenesLocally, topicOf.
  destruct (locale w), k; rewrite L by reflexivity; reflexivity.
Qed.

End Branches.

Lemma provider_branch_by_keyword_witness :
  occurs (lit "moon") (asciiLower (trim (lit " Blue Moon over Egypt ")))
  /\ generateScenesLocally asciiLower (lit " Blue Moon over Egypt ") = moonScenes.
Proof.
  assert (O : occurs (lit "moon") (asciiLower (trim (lit " Blue Moon over Egypt ")))).
  { exists (lit "blue "), (lit " over egypt"). reflexivity. }
  split; [exact O|].
  apply (proj1 (provider_branch_by_keyword asciiLower (lit " Blue Moon over Egypt "))).
  left. exact O.
Defined.

Lemma suggestions_by_language_witness :
  scenes (dispatch asciiLower (ClickSuggestion AncientEgypt)
            (dispatch asciiLower (SelectLocale EsES) (initialWorld true)))
  = genericScenes (lit "Antiguo Egipto").
Proof.
  exact (proj2 (suggestions_by_language asciiLower
                  (dispatch asciiLower (SelectLocale EsES) (initialWorld true))
                  AncientEgypt (fun s _ => eq_refl))).
Defined.

(** ** The Select component *)

Section SelectFacts.

Import SelectUi.

Lemma sameValue_refl (a : option jsstring) : sameValue a a = true.
Proof. destruct a; [now apply JsString_eqb_eq|reflexivity]. Qed.

Lemma clicks_controlled (xs : list jsstring) (s : Select) :
  value s = v s ->
  let s' := fold_left (fun s x => clickItem (Some controlled) x s) xs s in
  value s' = v s' /\ (xs <> [] -> v s' = Some (List.last xs [])).
Proof.
  cbv zeta. revert s. induction xs as [|x xs IH]; intros s E.
  - cbn. split; [exact E|]. intros H. now elim H.
  - cbn [fold_left].
    assert (C : clickItem (Some controlled) x s = mkSelect (Some x) (Some x)).
    { unfold clickItem, rerender, controlled. cbn.
      destruct (sameValue (value s) (Some x)); reflexivity. }
    rewrite C. destruct (IH (mkSelect (Some x) (Some x)) eq_refl) as [V L].
    split; [exact V|]. intros _. destruct xs as [|y xs]; [reflexivity|].
    rewrite L by discriminate. reflexivity.
Qed.

(** X23: used as the page uses it, with a parent that stores the chosen
    value and passes it back, [Select] keeps its local state equal to the
    prop through any sequence of item clicks, and [SelectValue] shows the
    item clicked last, never the placeholder.  Without a handler, or with a
    parent that keeps the prop as it was, the local state is the clicked
    item all the same, so what is shown then departs from the prop. *)
Theorem select_shows_the_last_choice (xs : list jsstring) (x : jsstring)
    (initial placeholder : option jsstring) :
  let s' := fold_left (fun s y => clickItem (Some controlled) y s) (xs ++ [x])
              (mount initial) in
  (value s' = Some x /\ v s' = Some x /\ SelectValue placeholder s' = x)
  /\ (forall s, v (clickItem None x s) = Some x /\ value (clickItem None x s) = value s)
  /\ (forall s, v (clickItem (Some (fun _ => value s)) x s) = Some x).
Proof.
  cbv zeta. split; [|split].
  - destruct (clicks_controlled (xs ++ [x]) (mount initial) eq_refl) as [V L].
    assert (N : xs ++ [x] <> []) by (destruct xs; discriminate).
    specialize (L N). rewrite last_last in L.
    unfold SelectValue. rewrite V, L. repeat split.
  - intros s. split; reflexivity.
  - intros s. unfold clickItem, rerender. cbn. now rewrite sameValue_refl.
Qed.

End SelectFacts.

(** ** Rendering knobs *)

Section Knobs.

Import Render Stage.
Local Open Scope Q_scope.

(** X24: over the levels of the quality slider, more quality never gives
    less of anything: multisampling is twice the level, bloom intensity
    and the light factor do not decrease with it, and the four lights of
    the lowest level are the lights of the higher levels dimmed to 70%. *)
Theorem quality_knobs_are_monotone (q1 q2 : Z) :
  (0 <= q1 <= q2)%Z ->
  (multisampling q1 = 2 * q1)%Z
  /\ (multisampling q1 <= multisampling q2)%Z
  /\ bloomIntensity q1 <= bloomIntensity q2
  /\ keyLightIntensity q1 <= keyLightIntensity q2
  /\ ((0 < q2)%Z ->
      Forall2 (fun dim full => dim == (7 # 10) * full)
        (KeyLights (keyLightIntensity 0)) (KeyLights (keyLightIntensity q2))).
Proof.
  intros H. unfold multisampling, bloomIntensity, keyLightIntensity.
  split; [lia|]. split; [lia|]. split; [|split].
  - assert (I : inject_Z q1 <= inject_Z q2) by (rewrite <- Zle_Qle; lia).
    apply Qplus_le_r. apply Qmult_le_l; [reflexivity|exact I].
  - destruct (Z.eqb_spec q1 0), (Z.eqb_spec q2 0); try lia; unfold Qle; cbn; lia.
  - intros P. destruct (Z.eqb_spec q2 0); [lia|].
    unfold KeyLights. cbn [Z.eqb]. repeat constructor; ring.
Qed.

Lemma quality_knobs_are_monotone_witness :
  (multisampling 1 <= multisampling 2)%Z.
Proof.
  refine (proj1 (proj2 (quality_knobs_are_monotone 1 2 _))). lia.
Defined.

End Knobs.

(** ** The further statements at concrete inputs *)

Lemma silentShow_reachable :
  reachable asciiLower
    (run asciiLower [ClickSuggestion WorldWarII; ClickNext; TimePasses 6800; TimerFires 0]
       (initialWorld false)).
Proof. apply reachable_run. vm_compute. reflexivity. Qed.


Lemma no_synthesis_no_calls_witness :
  sinkCalls (run asciiLower [ClickSuggestion WorldWarII; ClickNext; TimePasses 6800;
                             TimerFires 0] (initialWorld false)) = [].
Proof. exact (no_synthesis_no_calls asciiLower _ silentShow_reachable eq_refl). Defined.

Lemma loading_is_never_observed_witness : loading moonShow = false.
Proof. exact (loading_is_never_observed asciiLower moonShow moonShow_reachable). Defined.

Lemma spoken_texts_are_narrations_witness :
  exists s, populated s = true
            /\ narration (hd warpScene moonScenes) = narration s
            /\ narration (hd warpScene moonScenes) <> [].
Proof.
  refine (spoken_texts_are_narrations asciiLower moonShow
            (narration (hd warpScene moonScenes)) EnUS moonShow_reachable _).
  vm_compute. right. right. left. reflexivity.
Defined.

Lemma idle_or_a_provided_show_witness :
  (scenes moonShow = [] /\ playing moonShow = false /\ active moonShow = Int 0
   /\ log moonShow = [] /\ timers moonShow = [])
  \/ (List.length (scenes moonShow) = 3%nat
      /\ forallb populated (scenes moonShow) = true
      /\ exists name, isEmpty name = false
           /\ scenes moonShow = generateScenesLocally asciiLower name).
Proof. exact (idle_or_a_provided_show asciiLower moonShow moonShow_reachable). Defined.

Lemma show_is_never_taken_down_witness :
  scenes (run asciiLower [ClickPlayPause; TypeEventName (lit "egypt"); ClickBegin] moonShow)
  <> [].
Proof.
  refine (proj1 (show_is_never_taken_down asciiLower moonShow _
                   [ClickPlayPause; TypeEventName (lit "egypt"); ClickBegin]
                   moonShow_reachable _ _)).
  - discriminate.
  - apply steps_run. vm_compute. reflexivity.
Defined.

Lemma provider_scenes_render_without_flag_witness :
  exists els, Stage.Diorama (hd warpScene moonScenes) = Some els /\ ~ In Stage.Flag els.
Proof.
  refine (provider_scenes_render_without_flag asciiLower (lit "moon")
            (hd warpScene moonScenes) _).
  left. reflexivity.
Defined.


Lemma autoplay_firings_witness :
  active (run asciiLower (repeat (TimerFires 0) 3) moonShow) = active moonShow.
Proof.
  refine (proj2 (proj2 (proj2 (proj2 (proj2
           (autoplay_firings asciiLower moonShow
              (mkInterval 0 6800 6800 moonScenes true EnUS) 0 3
              moonShow_reachable eq_refl eq_refl))))) _).
  reflexivity.
Defined.

Lemma countdown_restarts_witness :
  List.map deadline (timers (dispatch asciiLower (SelectLocale EsES) moonShow))
  = [now moonShow + 6800].
Proof.
  refine (proj1 (proj1 (countdown_restarts asciiLower moonShow moonShow_reachable
                          eq_refl) eq_refl _) EsES _); discriminate.
Defined.

Lemma startShow_noop_iff_blank_witness :
  forallb isWhiteSpace (rawTopic (Some (lit "   ")) moonShow) = true
  /\ startShow asciiLower (Some (lit "   ")) moonShow = moonShow.
Proof.
  split; [reflexivity|].
  exact (proj2 (proj1 (startShow_noop_iff_blank asciiLower (Some (lit "   ")) moonShow))
           eq_refl).
Defined.
